(** * Order processing service: a shallow embedding and its properties

    The development follows [src/balance_service.py] and
    [src/order_service.py].

    Modelling choices.
    - Python [int] is [Z]; Python [str] is [string]; [Optional[T]] is
      [option T]; a [dict] keyed by customer id is a [gmap Z _].
    - Python [float] is the binary64 type [float] of the prover, with its
      own [+], [-], [<?], [<=?] and [=?]: rounding, the infinities, the
      two zeros and NaN are those of IEEE 754, and facts about them are
      derived from the standard specification of these operations.
    - Module-level state ([_customer_balances], [_daily_stats]) and the
      state of the [random] module live in one [World] record that every
      operation threads explicitly; exceptions are the left summand of the
      result, so a handler is an ordinary [match].
    - [time.sleep] has no effect on a single thread of control.  Where it
      matters (the statistics update run by several request threads) the
      statements of the function are replayed one at a time under an
      explicit schedule, see [UpdateThread]. *)

From Stdlib Require Import ZArith Floats String List Sorted Permutation Lia.
From stdpp Require Import gmap strings pretty.

Open Scope Z_scope.
Open Scope string_scope.
Open Scope list_scope.

(** ** Python runtime pieces *)

(** Exceptions raised on the modelled paths. *)
Inductive PyExc : Type :=
| ConnectionError (msg : string).

(** [str(e)] *)
Definition str_exc (e : PyExc) : string :=
  match e with ConnectionError msg => msg end.

(** [str(x)] for [x : Optional[str]], as an f-string renders it. *)
Definition str_opt (x : option string) : string :=
  match x with
  | None => "None"
  | Some s => s
  end.

(** The builtin [sorted(l, key=key)]: ascending in the key and stable.
    An element is inserted in front of the first element whose key is not
    smaller, and the list is built from its right end, so equal keys keep
    the order they had in [l]. *)
Fixpoint insert_by_key {A : Type} (key : A -> Z) (x : A) (l : list A) : list A :=
  match l with
  | [] => [x]
  | y :: l' =>
      if (key x <=? key y)%Z then x :: y :: l'
      else y :: insert_by_key key x l'
  end.

Definition sorted {A : Type} (l : list A) (key : A -> Z) : list A :=
  foldr (insert_by_key key) [] l.

(** [range(n)] *)
Definition range (n : Z) : list Z := seqZ 0 n.

(** ** Data classes and request models *)

Module BalanceResponse.
Record t : Type := mk {
  success : bool;
  customer_id : Z;
  new_balance : float;
  error : option string
}.
End BalanceResponse.

Module OrderRequest.
Record t : Type := mk {
  id : Z;
  customer_id : Z;
  amount : float;
  priority : bool
}.
End OrderRequest.

Module OrderResponse.
Record t : Type := mk {
  id : Z;
  status : string;
  priority : bool;
  message : option string;
  new_balance : option float
}.
End OrderResponse.

Module BatchOrderRequest.
Record t : Type := mk {
  orders : list OrderRequest.t
}.
End BatchOrderRequest.

(** [_daily_stats] and [StatsResponse] have the same two fields. *)
Record DailyStats : Type := mkStats {
  total_revenue : float;
  order_count : Z
}.

(** ** The world *)

(** A call into [balance_service], for the call log. *)
Inductive LedgerCall : Type :=
| CallGetBalance (customer_id : Z)
| CallDeductBalance (customer_id : Z) (amount : float).

(** [random_lt n] is the value of the [n]-th evaluation of
    [random.random() < 0.1] and [random_pos] counts the evaluations made
    so far.  [ledger_calls] is a ghost log (most recent call first) of the
    calls into [balance_service]; no operation reads it. *)
Record World : Type := mkWorld {
  _customer_balances : gmap Z float;
  _daily_stats : DailyStats;
  random_lt : nat -> bool;
  random_pos : nat;
  ledger_calls : list LedgerCall
}.

(** Computations over the world that return or raise. *)
Definition M (A : Type) : Type := World -> (PyExc + A) * World.

#[global] Instance M_ret : MRet M := fun A (a : A) w => (inr a, w).

#[global] Instance M_bind : MBind M := fun A B (k : A -> M B) (m : M A) w =>
  match m w with
  | (inl e, w') => (inl e, w')
  | (inr a, w') => k a w'
  end.

Definition raise {A : Type} (e : PyExc) : M A := fun w => (inl e, w).

(** [try: body / except ConnectionError as e: handler] *)
Definition try_except {A : Type} (body : M A) (handler : PyExc -> M A) : M A :=
  fun w =>
    match body w with
    | (inl (ConnectionError msg), w') => handler (ConnectionError msg) w'
    | (inr a, w') => (inr a, w')
    end.

Definition read_balances : M (gmap Z float) := fun w => (inr (_customer_balances w), w).

Definition write_balances (b : gmap Z float) : M unit := fun w =>
  (inr tt, mkWorld b (_daily_stats w) (random_lt w) (random_pos w) (ledger_calls w)).

Definition read_stats : M DailyStats := fun w => (inr (_daily_stats w), w).

Definition write_stats (s : DailyStats) : M unit := fun w =>
  (inr tt, mkWorld (_customer_balances w) s (random_lt w) (random_pos w) (ledger_calls w)).

(** One evaluation of [random.random() < 0.1]. *)
Definition random_random_lt_01 : M bool := fun w =>
  (inr (random_lt w (random_pos w)),
   mkWorld (_customer_balances w) (_daily_stats w) (random_lt w) (S (random_pos w))
           (ledger_calls w)).

Definition log_call (c : LedgerCall) : M unit := fun w =>
  (inr tt, mkWorld (_customer_balances w) (_daily_stats w) (random_lt w) (random_pos w)
                   (c :: ledger_calls w)).

(** ** balance_service.py *)

(** The literal both the module body and [reset_balances] assign. *)
Definition seed_balances : gmap Z float :=
  <[1 := 500%float]> (<[2 := 1000%float]> (<[3 := 250%float]> (<[4 := 750%float]> (<[5 := 100%float]> ∅)))).

Definition get_balance (customer_id : Z) : M float :=
  log_call (CallGetBalance customer_id);;
  balances ← read_balances;
  mret (default 0%float (balances !! customer_id)).

Definition deduct_balance (customer_id : Z) (amount : float) : M BalanceResponse.t :=
  log_call (CallDeductBalance customer_id amount);;
  unavailable ← random_random_lt_01;
  if (unavailable : bool) then
    raise (ConnectionError "Balance service temporarily unavailable")
  else
    balances ← read_balances;
    let current_balance := default 0%float (balances !! customer_id) in
    if (current_balance <? amount)%float then
      mret (BalanceResponse.mk false customer_id current_balance
              (Some "Insufficient balance"))
    else
      let new_balance := (current_balance - amount)%float in
      write_balances (<[customer_id := new_balance]> balances);;
      mret (BalanceResponse.mk true customer_id new_balance None).

Definition reset_balances : M unit := write_balances seed_balances.

(** The values stored in the plain dicts of [order_service]: [None],
    [bool], [int], [float] and [str]. *)
Inductive PyVal : Type :=
| PyNone
| PyBool (b : bool)
| PyInt (z : Z)
| PyFloat (q : float)
| PyStr (s : string).

(** ** order_service.py *)

Definition empty_stats : DailyStats := mkStats 0%float 0.

(** [_daily_stats["total_revenue"] = r] *)
Definition set_total_revenue (r : float) : M unit :=
  stats ← read_stats;
  write_stats (mkStats r (order_count stats)).

(** [_daily_stats["order_count"] = c] *)
Definition set_order_count (c : Z) : M unit :=
  stats ← read_stats;
  write_stats (mkStats (total_revenue stats) c).

(** [_update_daily_stats] on one thread of control.  The replay of its
    statements under a schedule of several threads is [UpdateThread]. *)
Definition _update_daily_stats (amount : float) : M unit :=
  stats ← read_stats;
  let current_revenue := total_revenue stats in
  let current_count := order_count stats in
  (* time.sleep(0.001) *)
  set_total_revenue (current_revenue + amount)%float;;
  set_order_count (current_count + 1).

(** What an iteration of the retry loop does next: leave the function with
    a response, or go round again with [last_error] set. *)
Inductive LoopExit : Type :=
| Return (response : OrderResponse.t)
| Continue (last_error : option string).

Section OrderService.

(** [float_str x] is the text an f-string puts for the float [x]. *)
Variable float_str : float -> string.

(** The body of [for attempt in range(max_retries)], iterated over the
    values of the range that are still to come. *)
Fixpoint retry_loop (order : OrderRequest.t) (attempts : list Z)
    (last_error : option string) : M LoopExit :=
  match attempts with
  | [] => mret (Continue last_error)
  | _attempt :: rest =>
      step ← try_except
        (result ← deduct_balance (OrderRequest.customer_id order) (OrderRequest.amount order);
         if BalanceResponse.success result then
           _update_daily_stats (OrderRequest.amount order);;
           mret (Return (OrderResponse.mk (OrderRequest.id order) "ok"
                           (OrderRequest.priority order) None
                           (Some (BalanceResponse.new_balance result))))
         else
           mret (Return (OrderResponse.mk (OrderRequest.id order) "error"
                           (OrderRequest.priority order)
                           (BalanceResponse.error result) None)))
        (fun e => mret (Continue (Some (str_exc e))));
      match step with
      | Return response => mret (Return response)
      | Continue last_error' => retry_loop order rest last_error'
      end
  end.

Definition _process_single_order (order : OrderRequest.t) (max_retries : Z)
    : M OrderResponse.t :=
  if (OrderRequest.amount order <=? 0)%float then
    mret (OrderResponse.mk (OrderRequest.id order) "error"
            (OrderRequest.priority order) (Some "Invalid order amount") None)
  else
    current_balance ← get_balance (OrderRequest.customer_id order);
    if (current_balance <? OrderRequest.amount order)%float then
      mret (OrderResponse.mk (OrderRequest.id order) "error"
              (OrderRequest.priority order)
              (Some ("Insufficient balance: " +:+ float_str current_balance
                     +:+ " < " +:+ float_str (OrderRequest.amount order)))
              None)
    else
      exit ← retry_loop order (range max_retries) None;
      match exit with
      | Return response => mret response
      | Continue last_error =>
          mret (OrderResponse.mk (OrderRequest.id order) "error"
                  (OrderRequest.priority order)
                  (Some ("Balance service unavailable after " +:+ pretty max_retries
                         +:+ " retries: " +:+ str_opt last_error))
                  None)
      end.

(** The default of the [max_retries] argument. *)
Definition default_max_retries : Z := 3.

Definition create_order (order : OrderRequest.t) : M OrderResponse.t :=
  _process_single_order order default_max_retries.

(** The [for order in request.orders] loop, with [results] as it stands. *)
Fixpoint process_orders (orders : list OrderRequest.t) (results : list OrderResponse.t)
    : M (list OrderResponse.t) :=
  match orders with
  | [] => mret results
  | order :: rest =>
      result ← _process_single_order order default_max_retries;
      process_orders rest (results ++ [result])
  end.

Definition create_orders_batch (request : BatchOrderRequest.t) : M (list OrderResponse.t) :=
  results ← process_orders (BatchOrderRequest.orders request) [];
  mret (sorted results (fun x => Z.b2z (OrderResponse.priority x))).

Definition get_stats : M DailyStats :=
  stats ← read_stats;
  mret (mkStats (total_revenue stats) (order_count stats)).

Definition reset_state : M (gmap string PyVal) :=
  write_stats empty_stats;;
  reset_balances;;
  mret (<["status" := PyStr "reset complete"]> ∅).

Definition check_balance (customer_id : Z) : M (gmap string PyVal) :=
  balance ← get_balance customer_id;
  mret (<["customer_id" := PyInt customer_id]> (<["balance" := PyFloat balance]> ∅)).

End OrderService.

(** ** [_update_daily_stats] under several request threads

    The endpoints are synchronous handlers, which the framework runs on a
    pool of threads over the same module state.  A thread can be
    descheduled between any two statements of [_update_daily_stats] (the
    [time.sleep] between the reads and the writes always yields), so a call
    is replayed here one statement at a time. *)

(** The statement a call is about to run. *)
Inductive UpdatePc : Type :=
| AtReadRevenue   (* current_revenue = _daily_stats["total_revenue"] *)
| AtReadCount     (* current_count = _daily_stats["order_count"] *)
| AtSleep         (* time.sleep(0.001) *)
| AtWriteRevenue  (* _daily_stats["total_revenue"] = current_revenue + amount *)
| AtWriteCount    (* _daily_stats["order_count"] = current_count + 1 *)
| AtReturn.

(** A call in progress: its argument, its locals and where it stands. *)
Record UpdateThread : Type := mkThread {
  pc : UpdatePc;
  amount : float;
  current_revenue : float;
  current_count : Z
}.

(** A call that has not started; the locals are not yet bound. *)
Definition spawn_update (a : float) : UpdateThread := mkThread AtReadRevenue a 0%float 0.

(** One statement of one call, on the shared [_daily_stats]. *)
Definition update_step (t : UpdateThread) (stats : DailyStats) : UpdateThread * DailyStats :=
  match pc t with
  | AtReadRevenue =>
      (mkThread AtReadCount (amount t) (total_revenue stats) (current_count t), stats)
  | AtReadCount =>
      (mkThread AtSleep (amount t) (current_revenue t) (order_count stats), stats)
  | AtSleep =>
      (mkThread AtWriteRevenue (amount t) (current_revenue t) (current_count t), stats)
  | AtWriteRevenue =>
      (mkThread AtWriteCount (amount t) (current_revenue t) (current_count t),
       mkStats (current_revenue t + amount t)%float (order_count stats))
  | AtWriteCount =>
      (mkThread AtReturn (amount t) (current_revenue t) (current_count t),
       mkStats (total_revenue stats) (current_count t + 1))
  | AtReturn => (t, stats)
  end.

(** A schedule names, step by step, the thread that runs next.  A name
    outside the pool, or of a call that has returned, is a step on which
    nothing happens. *)
Fixpoint run_schedule (schedule : list nat) (threads : list UpdateThread)
    (stats : DailyStats) : list UpdateThread * DailyStats :=
  match schedule with
  | [] => (threads, stats)
  | i :: schedule' =>
      match threads !! i with
      | None => run_schedule schedule' threads stats
      | Some t =>
          let '(t', stats') := update_step t stats in
          run_schedule schedule' (<[i := t']> threads) stats'
      end
  end.

Definition returned (t : UpdateThread) : bool :=
  match pc t with AtReturn => true | _ => false end.

(** The schedule that runs call [i] from its first statement to its
    return without a switch. *)
Definition run_alone (i : nat) : list nat := replicate 5 i.

(** The calls run one after the other, in the order of the pool. *)
Definition serial_schedule (n : nat) : list nat := flat_map run_alone (seq 0 n).

(** The sum of the amounts, built the way successive updates build it. *)
Definition sum_amounts (amounts : list float) (start : float) : float :=
  fold_left PrimFloat.add amounts start.

(** The Ledger's interface, for runs of arbitrary calls. *)
Inductive LedgerOp : Type :=
| OpGetBalance (customer_id : Z)
| OpDeductBalance (customer_id : Z) (amount : float)
| OpResetBalances.

(** The world after a Ledger call; a raised [ConnectionError] is dropped,
    as a caller that catches it would. *)
Definition ledger_op (op : LedgerOp) (w : World) : World :=
  match op with
  | OpGetBalance c => snd (get_balance c w)
  | OpDeductBalance c a => snd (deduct_balance c a w)
  | OpResetBalances => snd (reset_balances w)
  end.

Definition ledger_ops (ops : list LedgerOp) (w : World) : World :=
  fold_left (fun w op => ledger_op op w) ops w.

(** The balance [get_balance] would report. *)
Definition balance_of (w : World) (customer_id : Z) : float :=
  default 0%float (_customer_balances w !! customer_id).

(** Every stored balance is non-negative. *)
Definition balances_nonneg (w : World) : Prop :=
  forall customer_id, (0 <=? balance_of w customer_id)%float = true.

(** A world as the modules leave it when they are loaded. *)
Definition initial_world (rnd : nat -> bool) : World :=
  mkWorld seed_balances empty_stats rnd 0 [].

(** The world after [k] calls [deduct_balance c a] in a row that all
    raised: only the random state and the call log have moved. *)
Definition after_unavailable (c : Z) (a : float) (k : nat) (w : World) : World :=
  mkWorld (_customer_balances w) (_daily_stats w) (random_lt w)
          (random_pos w + k)%nat
          (replicate k (CallDeductBalance c a) ++ ledger_calls w).

(** The next [k] evaluations of [random.random() < 0.1] are all true. *)
Definition unavailable_run (w : World) (k : nat) : Prop :=
  forall i, (i < k)%nat -> random_lt w (random_pos w + i)%nat = true.

(** The world after [get_balance c]. *)
Definition after_get_balance (c : Z) (w : World) : World :=
  mkWorld (_customer_balances w) (_daily_stats w) (random_lt w) (random_pos w)
          (CallGetBalance c :: ledger_calls w).

(** The statistics after one recorded order of amount [a]. *)
Definition stats_plus (a : float) (s : DailyStats) : DailyStats :=
  mkStats (total_revenue s + a)%float (order_count s + 1).

(** The message of the [ConnectionError] the Ledger raises. *)
Definition unavailable_msg : string := "Balance service temporarily unavailable".

(** ** order_service.py: the legacy functions *)

(** What the legacy loop can raise. *)
Inductive LegacyExc : Type :=
| KeyError (key : string)
| TypeError.

(** [v <= 0]: defined on numbers ([bool] counts as 0 or 1); on [None] and
    on [str] Python raises [TypeError]. *)
Definition py_le_zero (v : PyVal) : LegacyExc + bool :=
  match v with
  | PyBool b => inr (Z.b2z b <=? 0)%Z
  | PyInt z => inr (z <=? 0)%Z
  | PyFloat q => inr ((q <=? 0)%float)
  | PyNone | PyStr _ => inl TypeError
  end.

(** [v == True]: [True], [1] and [1.0] are equal to [True]; nothing else
    is (NaN in particular is not). *)
Definition py_eq_True (v : PyVal) : bool :=
  match v with
  | PyBool b => b
  | PyInt z => (z =? 1)%Z
  | PyFloat q => (q =? 1)%float
  | PyNone | PyStr _ => false
  end.

(** [d.get(k)] *)
Definition dict_get (d : gmap string PyVal) (k : string) : PyVal :=
  default PyNone (d !! k).

(** [{"id": i, "status": "error"}] *)
Definition legacy_error (i : PyVal) : gmap string PyVal :=
  <["id" := i]> (<["status" := PyStr "error"]> ∅).

(** [{"id": i, "status": "ok", "priority": p}] *)
Definition legacy_ok (i : PyVal) (p : bool) : gmap string PyVal :=
  <["id" := i]> (<["status" := PyStr "ok"]> (<["priority" := PyBool p]> ∅)).

(** One round of [for d in data]: the dict appended to [results], or the
    exception that ends the call.  The [or] chain stops at its first true
    operand, so [d["amount"] <= 0] is only evaluated on a stored value that
    is not [None]; [d["id"]] is only evaluated on the "ok" path. *)
Definition handle_order (d : gmap string PyVal) : LegacyExc + gmap string PyVal :=
  match d !! "amount" with
  | None => inr (legacy_error (dict_get d "id"))
  | Some PyNone => inr (legacy_error (dict_get d "id"))
  | Some v =>
      match py_le_zero v with
      | inl e => inl e
      | inr true => inr (legacy_error (dict_get d "id"))
      | inr false =>
          if py_eq_True (dict_get d "priority") then
            match d !! "id" with
            | None => inl (KeyError "id")
            | Some i => inr (legacy_ok i true)
            end
          else
            match d !! "id" with
            | None => inl (KeyError "id")
            | Some i => inr (legacy_ok i false)
            end
      end
  end.

Fixpoint handle_orders_loop (data : list (gmap string PyVal))
    (results : list (gmap string PyVal)) : LegacyExc + list (gmap string PyVal) :=
  match data with
  | [] => inr results
  | d :: rest =>
      match handle_order d with
      | inl e => inl e
      | inr result => handle_orders_loop rest (results ++ [result])
      end
  end.

(** [x.get("priority", False)] as a sort key.  The dicts the loop builds
    store a [bool] there or nothing; an [int] is its own key, and the other
    kinds, which Python could not order against a [bool], do not occur. *)
Definition legacy_priority_key (x : gmap string PyVal) : Z :=
  match x !! "priority" with
  | Some (PyBool b) => Z.b2z b
  | Some (PyInt z) => z
  | _ => 0
  end.

Definition handle_orders (data : list (gmap string PyVal))
    : LegacyExc + list (gmap string PyVal) :=
  match handle_orders_loop data [] with
  | inl e => inl e
  | inr results => inr (sorted results legacy_priority_key)
  end.


(** ** An invariant of the scheduled statistics update *)

(** The calls of the pool that have returned. *)
Definition returned_calls (threads : list UpdateThread) : Z :=
  Z.of_nat (length (List.filter returned threads)).

(** A call that holds a count it has read and not yet written back holds
    one between the starting count [c0] and [c0] plus the [D] calls that
    have returned. *)
Definition holds_sound_count (c0 D : Z) (t : UpdateThread) : Prop :=
  match pc t with
  | AtSleep | AtWriteRevenue | AtWriteCount =>
      c0 <= current_count t <= c0 + D
  | AtReadRevenue | AtReadCount | AtReturn => True
  end.

Definition count_invariant (c0 : Z) (threads : list UpdateThread) (stats : DailyStats)
    : Prop :=
  c0 <= order_count stats <= c0 + returned_calls threads
  /\ (0 < returned_calls threads -> c0 + 1 <= order_count stats)
  /\ Forall (holds_sound_count c0 (returned_calls threads)) threads.

(** ** Conditions on a legacy order dict *)

(** The amount is missing, [None], or a number that is zero or negative. *)
Definition amount_rejected (d : gmap string PyVal) : bool :=
  match d !! "amount" with
  | None | Some PyNone => true
  | Some (PyBool b) => negb b
  | Some (PyInt z) => (z <=? 0)%Z
  | Some (PyFloat q) => (q <=? 0)%float
  | Some (PyStr _) => false
  end.

(** The amount passes the loop's test: it is stored, is not [None], and
    [amount <= 0] is false for it.  That is a number above zero ([True]
    counts as 1) or the float NaN, for which every comparison is false. *)
Definition amount_positive (d : gmap string PyVal) : bool :=
  match d !! "amount" with
  | Some (PyBool b) => b
  | Some (PyInt z) => (0 <? z)%Z
  | Some (PyFloat q) => negb ((q <=? 0)%float)
  | _ => false
  end.

(** The amount is a [str]. *)
Definition amount_is_str (d : gmap string PyVal) : bool :=
  match d !! "amount" with
  | Some (PyStr _) => true
  | _ => false
  end.

(** The dict asks for priority handling: it stores [True], [1] or [1.0]
    under "priority". *)
Definition wants_priority (d : gmap string PyVal) : bool :=
  py_eq_True (dict_get d "priority").

(** A result dict with status "ok". *)
Definition legacy_is_ok (x : gmap string PyVal) : bool :=
  match x !! "status" with
  | Some (PyStr s) => String.eqb s "ok"
  | _ => false
  end.

(** A result dict that stores [True] under "priority". *)
Definition legacy_is_priority (x : gmap string PyVal) : bool :=
  match x !! "priority" with
  | Some (PyBool b) => b
  | _ => false
  end.

(** ** Bookkeeping over a run of orders *)

Definition is_ok (r : OrderResponse.t) : bool :=
  String.eqb (OrderResponse.status r) "ok".




(** The two shapes of response the processor builds. *)
Definition ok_response (o : OrderRequest.t) (nb : float) : OrderResponse.t :=
  OrderResponse.mk (OrderRequest.id o) "ok" (OrderRequest.priority o) None (Some nb).

Definition error_response (o : OrderRequest.t) (msg : string) : OrderResponse.t :=
  OrderResponse.mk (OrderRequest.id o) "error" (OrderRequest.priority o) (Some msg) None.

(** Unfolds the primitive operations on the world. *)
Ltac run_m :=
  unfold mbind, mret, M_bind, M_ret, raise, read_balances, write_balances,
    read_stats, write_stats, random_random_lt_01, log_call;
  cbv beta iota zeta delta
    [_customer_balances _daily_stats random_lt random_pos ledger_calls].

(** The amount of a Ledger call is below +infinity: it is a finite number
    or -infinity, and it is not NaN. *)
Definition amount_below_infinity (op : LedgerOp) : Prop :=
  match op with
  | OpDeductBalance _ a => (a <? infinity)%float = true
  | OpGetBalance _ | OpResetBalances => True
  end.

(** [0 <= x] on specified floats: [x] is a zero, a positive number or
    +infinity. *)
Definition SFnonneg (x : spec_float) : bool := SFleb (S754_zero false) x.

(** [r] is +infinity or a positive finite number that the comparison ranks
    at or above the positive finite number [(mx, ex)]. *)
Definition ge_finite (mx : positive) (ex : Z) (r : spec_float) : Prop :=
  match r with
  | S754_infinity false => True
  | S754_finite false m e => ex < e \/ (e = ex /\ (mx <= m)%positive)
  | _ => False
  end.

(** * Properties *)

(** ** Facts about binary64 comparisons and subtraction *)

Lemma Prim2SF_zero : Prim2SF 0%float = S754_zero false.
Proof. reflexivity. Qed.

Lemma Prim2SF_infinity : Prim2SF infinity = S754_infinity false.
Proof. reflexivity. Qed.

Lemma float_lt0_not_le0 (a : float) : (0 <? a)%float = true -> (a <=? 0)%float = false.
Proof.
  rewrite ltb_spec, leb_spec, Prim2SF_zero.
  destruct (Prim2SF a) as [s|s| |s m e]; try destruct s; cbn; congruence.
Qed.

Lemma float_le0_not_lt0 (a : float) : (a <=? 0)%float = true -> (0 <? a)%float = false.
Proof.
  rewrite ltb_spec, leb_spec, Prim2SF_zero.
  destruct (Prim2SF a) as [s|s| |s m e]; try destruct s; cbn; congruence.
Qed.

Lemma float_number_pos_or_le0 (a : float) :
  (a =? a)%float = true -> (a <=? 0)%float = false -> (0 <? a)%float = true.
Proof.
  rewrite FloatAxioms.eqb_spec, ltb_spec, leb_spec, Prim2SF_zero.
  destruct (Prim2SF a) as [s|s| |s m e]; try destruct s; cbn; congruence.
Qed.

Lemma float_neg_le0 (a : float) : (a <? 0)%float = true -> (a <=? 0)%float = true.
Proof.
  rewrite ltb_spec, leb_spec, Prim2SF_zero.
  destruct (Prim2SF a) as [s|s| |s m e]; try destruct s; cbn; congruence.
Qed.

Lemma float_neg_below_infinity (a : float) :
  (a <? 0)%float = true -> (a <? infinity)%float = true.
Proof.
  rewrite !ltb_spec, Prim2SF_zero, Prim2SF_infinity.
  destruct (Prim2SF a) as [s|s| |s m e]; try destruct s; cbn; congruence.
Qed.

Lemma float_neg_lt_nonneg (a b : float) :
  (a <? 0)%float = true -> (0 <=? b)%float = true -> (b <? a)%float = false.
Proof.
  rewrite !ltb_spec, leb_spec, Prim2SF_zero.
  destruct (Prim2SF a) as [s|s| |s m e], (Prim2SF b) as [s'|s'| |s' m' e'];
    try destruct s; try destruct s'; cbn; congruence.
Qed.

Lemma Prim2SF_nan : Prim2SF nan = S754_nan.
Proof. reflexivity. Qed.

Lemma float_lt_nan (b : float) : (b <? nan)%float = false.
Proof.
  rewrite ltb_spec, Prim2SF_nan. destruct (Prim2SF b) as [s|s| |s m e]; reflexivity.
Qed.

Lemma float_sub_nan (b : float) : (b - nan)%float = nan.
Proof.
  apply Prim2SF_inj. rewrite sub_spec, Prim2SF_nan.
  destruct (Prim2SF b) as [s|s| |s m e]; reflexivity.
Qed.

Lemma float_add_nan (b : float) : (b + nan)%float = nan.
Proof.
  apply Prim2SF_inj. rewrite add_spec, Prim2SF_nan.
  destruct (Prim2SF b) as [s|s| |s m e]; reflexivity.
Qed.

(** *** The sign of a rounded difference *)

Lemma shr_1_nonneg (r : shr_record) : 0 <= shr_m r -> 0 <= shr_m (shr_1 r).
Proof.
  destruct r as [m b s]. cbn. destruct m as [|p|p]; [cbn; lia | | lia].
  destruct p; cbn; lia.
Qed.

Lemma iter_pos_shr_1_nonneg (p : positive) :
  forall r, 0 <= shr_m r -> 0 <= shr_m (SpecFloat.iter_pos shr_1 p r).
Proof.
  induction p as [p IH|p IH|]; intros r H; cbn.
  - apply IH, IH. now apply shr_1_nonneg.
  - now apply IH, IH.
  - now apply shr_1_nonneg.
Qed.

Lemma shr_fexp_nonneg (m e : Z) (l : location) :
  0 <= m -> 0 <= shr_m (fst (shr_fexp prec emax m e l)).
Proof.
  intros H. unfold shr_fexp, shr.
  assert (H0 : 0 <= shr_m (shr_record_of_loc m l)) by (destruct l as [|[]]; exact H).
  destruct (fexp prec emax (Zdigits2 m + e) - e) as [|p|p]; cbn [fst]; try exact H0.
  now apply iter_pos_shr_1_nonneg.
Qed.

Lemma round_nearest_even_nonneg (m : Z) (l : location) :
  0 <= m -> 0 <= round_nearest_even m l.
Proof.
  intros H. destruct l as [|[]]; cbn; try lia. destruct (Z.even m); lia.
Qed.

Lemma binary_round_aux_nonneg (m e : Z) (l : location) :
  0 <= m -> SFnonneg (binary_round_aux prec emax false m e l) = true.
Proof.
  intros H. unfold binary_round_aux.
  pose proof (shr_fexp_nonneg m e l H) as H1.
  destruct (shr_fexp prec emax m e l) as [mrs' e']. cbn [fst] in H1.
  pose proof (shr_fexp_nonneg _ e' loc_Exact
                (round_nearest_even_nonneg _ (loc_of_shr_record mrs') H1)) as H2.
  destruct (shr_fexp prec emax _ e' loc_Exact) as [mrs'' e'']. cbn [fst] in H2.
  destruct (shr_m mrs'') as [|p|p]; [reflexivity | | lia].
  destruct (e'' <=? emax - prec)%Z; reflexivity.
Qed.

Lemma binary_normalize_nonneg (m e : Z) :
  0 <= m -> SFnonneg (binary_normalize prec emax m e false) = true.
Proof.
  intros H. destruct m as [|p|p]; [reflexivity | | lia].
  cbn [binary_normalize]. unfold binary_round.
  destruct (shl_align p e _) as [mz ez]. now apply binary_round_aux_nonneg.
Qed.

(** Size of a mantissa. *)
Lemma digits2_pos_bounds (m : positive) :
  2 ^ (Zpos (digits2_pos m) - 1) <= Zpos m < 2 ^ Zpos (digits2_pos m).
Proof.
  induction m as [m IH|m IH|]; cbn [digits2_pos].
  - rewrite Pos2Z.inj_succ.
    replace (Z.succ (Zpos (digits2_pos m)) - 1) with (Z.succ (Zpos (digits2_pos m) - 1)) by lia.
    rewrite !Z.pow_succ_r by lia. lia.
  - rewrite Pos2Z.inj_succ.
    replace (Z.succ (Zpos (digits2_pos m)) - 1) with (Z.succ (Zpos (digits2_pos m) - 1)) by lia.
    rewrite !Z.pow_succ_r by lia. lia.
  - cbn. lia.
Qed.

Lemma iter_xO_value (m d : positive) : Zpos (Pos.iter xO m d) = Zpos m * 2 ^ Zpos d.
Proof.
  revert m. induction d as [|d IH] using Pos.peano_ind; intros m.
  - cbn. lia.
  - rewrite Pos.iter_succ, Pos2Z.inj_succ, Z.pow_succ_r by lia.
    rewrite Pos2Z.inj_xO, IH. lia.
Qed.

Lemma shl_align_value (m : positive) (e e' : Z) :
  e' <= e -> Zpos (fst (shl_align m e e')) = Zpos m * 2 ^ (e - e').
Proof.
  intros H. unfold shl_align. destruct (e' - e) as [|d|d] eqn:E; cbn [fst].
  - replace (e - e') with 0 by lia. cbn. lia.
  - lia.
  - rewrite iter_xO_value. f_equal. f_equal. lia.
Qed.

(** Two valid finite positive numbers, the first not below the second:
    aligned on the smaller exponent, the first mantissa is not below the
    second. *)
Lemma aligned_mantissas_le (mx my : positive) (ex ey : Z) :
  bounded prec emax mx ex = true ->
  bounded prec emax my ey = true ->
  SFltb (S754_finite false mx ex) (S754_finite false my ey) = false ->
  Zpos (fst (shl_align my ey (Z.min ex ey)))
  <= Zpos (fst (shl_align mx ex (Z.min ex ey))).
Proof.
  unfold bounded, canonical_mantissa, SFltb, SFcompare, fexp, emin.
  intros Hx Hy Hlt.
  apply andb_true_iff in Hx as [Hx _]. apply andb_true_iff in Hy as [Hy _].
  apply Z.eqb_eq in Hx, Hy.
  rewrite !shl_align_value by lia.
  pose proof (digits2_pos_bounds mx) as Bx. pose proof (digits2_pos_bounds my) as By.
  destruct (Z.compare_spec ex ey) as [He|He|He]; [| discriminate Hlt |].
  - subst ey. rewrite Z.min_id, Z.sub_diag. cbn [Z.pow].
    fold (Pos.compare mx my) in Hlt.
    destruct (Pos.compare_spec mx my) as [->|H|H]; first [lia | discriminate Hlt].
  - rewrite Z.min_r by lia. rewrite Z.sub_diag. cbn [Z.pow].
    unfold prec, emax in *.
    assert (Hdx : Zpos (digits2_pos mx) = 53) by lia.
    assert (Hdy : Zpos (digits2_pos my) <= 53) by lia.
    rewrite Hdx in Bx. cbn in Bx.
    assert (Hmy : Zpos my < 2 ^ 53).
    { eapply Z.lt_le_trans; [apply By|]. apply Z.pow_le_mono_r; lia. }
    assert (Hp : 2 ^ 1 <= 2 ^ (ex - ey)) by (apply Z.pow_le_mono_r; lia).
    cbn in Hp, Hmy. nia.
Qed.

Lemma SFsub_nonneg (x y : spec_float) :
  valid_binary x = true ->
  valid_binary y = true ->
  SFnonneg x = true ->
  SFltb x y = false ->
  SFltb y (S754_infinity false) = true ->
  SFnonneg (SFsub prec emax x y) = true.
Proof.
  intros Vx Vy Hx Hxy Hy.
  destruct x as [sx|sx| |sx mx ex]; try discriminate Hx;
    destruct y as [sy|sy| |sy my ey]; try discriminate Hy;
    try (destruct sx; try discriminate Hx); try (destruct sy; try discriminate Hy);
    try discriminate Hxy; try reflexivity.
  - (* finite - negative finite *)
    cbn [SFsub cond_Zopp]. apply binary_normalize_nonneg. lia.
  - (* finite - positive finite *)
    cbn [SFsub cond_Zopp]. apply binary_normalize_nonneg.
    pose proof (aligned_mantissas_le mx my ex ey Vx Vy Hxy). lia.
Qed.

Lemma float_sub_nonneg (x y : float) :
  (0 <=? x)%float = true ->
  (x <? y)%float = false ->
  (y <? infinity)%float = true ->
  (0 <=? x - y)%float = true.
Proof.
  rewrite !leb_spec, !ltb_spec, sub_spec, Prim2SF_zero, Prim2SF_infinity.
  apply SFsub_nonneg; apply Prim2SF_valid.
Qed.

Lemma float_below_infinity_is_number (a : float) :
  (a <? infinity)%float = true -> (a =? a)%float = true.
Proof.
  rewrite ltb_spec, FloatAxioms.eqb_spec, Prim2SF_infinity.
  destruct (Prim2SF a) as [s|s| |s m e]; try destruct s; cbn; try congruence.
  all: intros _; unfold SFeqb, SFcompare; rewrite Z.compare_refl, Pos.compare_cont_refl; reflexivity.
Qed.

(** ** Subtracting a negative number rounds upwards *)

Lemma shr_1_div2 (r : shr_record) : 0 <= shr_m r -> shr_m (shr_1 r) = shr_m r / 2.
Proof.
  destruct r as [m b s]. cbn. destruct m as [|p|p]; [reflexivity | | lia].
  intros _. destruct p as [p|p|]; cbn [shr_m].
  - rewrite Pos2Z.inj_xI. apply (Z.div_unique _ 2 _ 1); lia.
  - rewrite Pos2Z.inj_xO. apply (Z.div_unique _ 2 _ 0); lia.
  - reflexivity.
Qed.

Lemma iter_pos_shr_1_div (p : positive) :
  forall r, 0 <= shr_m r ->
            shr_m (SpecFloat.iter_pos shr_1 p r) = shr_m r / 2 ^ Zpos p.
Proof.
  induction p as [p IH|p IH|]; intros r H; cbn [SpecFloat.iter_pos].
  - rewrite IH by (apply iter_pos_shr_1_nonneg; now apply shr_1_nonneg).
    rewrite IH by now apply shr_1_nonneg.
    rewrite shr_1_div2 by exact H.
    rewrite !Z.div_div by lia.
    f_equal. replace (Zpos p~1) with (Zpos p + Zpos p + 1) by lia.
    rewrite !Z.pow_add_r, Z.pow_1_r by lia. lia.
  - rewrite IH by now apply iter_pos_shr_1_nonneg.
    rewrite IH by exact H.
    rewrite !Z.div_div by lia.
    f_equal. replace (Zpos p~0) with (Zpos p + Zpos p) by lia.
    rewrite Z.pow_add_r by lia. lia.
  - rewrite shr_1_div2 by exact H. reflexivity.
Qed.

(** A right shift by [n] places, or none when [n] is not positive. *)
Lemma shr_spec (r : shr_record) (e n : Z) :
  0 <= shr_m r ->
  shr_m (fst (shr r e n)) = shr_m r / 2 ^ Z.max n 0
  /\ snd (shr r e n) = e + Z.max n 0.
Proof.
  intros H. unfold shr. destruct n as [|p|p]; cbn [fst snd].
  - cbn. rewrite Z.div_1_r. lia.
  - rewrite Z.max_l by lia. split; [now apply iter_pos_shr_1_div | reflexivity].
  - rewrite Z.max_r by lia. cbn. rewrite Z.div_1_r. lia.
Qed.

Lemma shr_fexp_spec (m e : Z) (l : location) :
  0 <= m ->
  let n := fexp prec emax (Zdigits2 m + e) - e in
  shr_m (fst (shr_fexp prec emax m e l)) = m / 2 ^ Z.max n 0
  /\ snd (shr_fexp prec emax m e l) = e + Z.max n 0.
Proof.
  intros H n. unfold shr_fexp. fold n.
  assert (Hm : shr_m (shr_record_of_loc m l) = m) by (destruct l as [|[]]; reflexivity).
  rewrite <- Hm at 2. apply shr_spec. now rewrite Hm.
Qed.

Lemma round_nearest_even_ge (m : Z) (l : location) : m <= round_nearest_even m l.
Proof. destruct l as [|[]]; cbn; try lia. destruct (Z.even m); lia. Qed.

Lemma digits2_pos_mono (a b : positive) :
  (a <= b)%positive -> Zpos (digits2_pos a) <= Zpos (digits2_pos b).
Proof.
  intros H. pose proof (digits2_pos_bounds a) as Ba.
  pose proof (digits2_pos_bounds b) as Bb.
  assert (Hlt : 2 ^ (Zpos (digits2_pos a) - 1) < 2 ^ Zpos (digits2_pos b)) by lia.
  apply Z.pow_lt_mono_r_iff in Hlt; lia.
Qed.

Lemma digits2_pos_shift (m : positive) (k : Z) (q : positive) :
  0 <= k -> Zpos q = Zpos m * 2 ^ k ->
  Zpos (digits2_pos q) = Zpos (digits2_pos m) + k.
Proof.
  intros Hk Hq. pose proof (digits2_pos_bounds m) as Bm.
  pose proof (digits2_pos_bounds q) as Bq. rewrite Hq in Bq.
  assert (H2k : 0 < 2 ^ k) by (apply Z.pow_pos_nonneg; lia).
  assert (H1 : 2 ^ (Zpos (digits2_pos m) - 1 + k) < 2 ^ Zpos (digits2_pos q)).
  { rewrite Z.pow_add_r by lia. nia. }
  assert (H2 : 2 ^ (Zpos (digits2_pos q) - 1) < 2 ^ (Zpos (digits2_pos m) + k)).
  { rewrite (Z.pow_add_r 2 (Zpos (digits2_pos m))) by lia. nia. }
  apply Z.pow_lt_mono_r_iff in H1; [|lia|lia].
  apply Z.pow_lt_mono_r_iff in H2; lia.
Qed.

Lemma ge_finite_leb (mx : positive) (ex : Z) (r : spec_float) :
  ge_finite mx ex r -> SFleb (S754_finite false mx ex) r = true.
Proof.
  destruct r as [s|s| |s m e]; try destruct s; cbn [ge_finite]; try contradiction;
    [reflexivity|].
  intros H. unfold SFleb, SFcompare.
  destruct (Z.compare_spec ex e) as [He|He|He]; try reflexivity; [|lia].
  destruct H as [H|[_ H]]; [lia|].
  fold (Pos.compare mx m). destruct (Pos.compare_spec mx m); try reflexivity. lia.
Qed.

Lemma shl_align_spec (m : positive) (e t : Z) :
  snd (shl_align m e t) <= e
  /\ Zpos (fst (shl_align m e t)) = Zpos m * 2 ^ (e - snd (shl_align m e t)).
Proof.
  unfold shl_align. destruct (t - e) as [|d|d] eqn:E; cbn [fst snd].
  - rewrite Z.sub_diag. cbn. lia.
  - rewrite Z.sub_diag. cbn. lia.
  - split; [lia|]. rewrite iter_xO_value. do 2 f_equal. lia.
Qed.

Lemma div_pow2_pos (a : positive) (k : Z) :
  0 <= k <= Zpos (digits2_pos a) - 1 -> 1 <= Zpos a / 2 ^ k.
Proof.
  intros Hk. pose proof (digits2_pos_bounds a) as Ba.
  assert (H2k : 0 < 2 ^ k) by (apply Z.pow_pos_nonneg; lia).
  assert (Hle : 2 ^ k <= 2 ^ (Zpos (digits2_pos a) - 1)) by (apply Z.pow_le_mono_r; lia).
  apply Z.div_le_lower_bound; lia.
Qed.

Lemma binary_round_aux_ge (mx : positive) (ex : Z) (mz : positive) (e1 : Z) :
  bounded prec emax mx ex = true ->
  e1 <= ex ->
  Zpos mx * 2 ^ (ex - e1) <= Zpos mz ->
  ge_finite mx ex (binary_round_aux prec emax false (Zpos mz) e1 loc_Exact).
Proof.
  intros Hb He1 Hmz.
  unfold bounded, canonical_mantissa in Hb.
  apply andb_true_iff in Hb as [Hc _]. apply Z.eqb_eq in Hc.
  unfold fexp, emin, prec, emax in Hc.
  (* the magnitude of [mz] is at least that of [mx] *)
  assert (Hq : exists q, Zpos q = Zpos mx * 2 ^ (ex - e1)).
  { assert (0 < Zpos mx * 2 ^ (ex - e1))
      by (apply Z.mul_pos_pos; [lia | apply Z.pow_pos_nonneg; lia]).
    destruct (Zpos mx * 2 ^ (ex - e1)) as [|q|q] eqn:E; try lia. now exists q. }
  destruct Hq as (q & Hq).
  pose proof (digits2_pos_shift mx (ex - e1) q ltac:(lia) Hq) as Hdq.
  assert (Hdz : Zpos (digits2_pos q) <= Zpos (digits2_pos mz))
    by (apply digits2_pos_mono; lia).
  unfold binary_round_aux.
  pose proof (shr_fexp_spec (Zpos mz) e1 loc_Exact ltac:(lia)) as [Hm' He'].
  destruct (shr_fexp prec emax (Zpos mz) e1 loc_Exact) as [mrs' e'].
  cbn [fst snd] in Hm', He'. cbn [Zdigits2] in Hm', He'.
  unfold fexp, emin, prec, emax in Hm', He'.
  set (D := Zpos (digits2_pos mz) + e1) in *.
  set (k1 := Z.max (Z.max (D - 53) (3 - 1024 - 53) - e1) 0) in *.
  assert (Hk1 : 0 <= k1 <= Zpos (digits2_pos mz) - 1) by lia.
  pose proof (div_pow2_pos mz k1 Hk1) as Hm'1. rewrite <- Hm' in Hm'1.
  pose proof (round_nearest_even_ge (shr_m mrs') (loc_of_shr_record mrs')) as Hr.
  set (m'' := round_nearest_even (shr_m mrs') (loc_of_shr_record mrs')) in *.
  destruct m'' as [|p''|p''] eqn:Em''; try lia.
  pose proof (shr_fexp_spec (Zpos p'') e' loc_Exact ltac:(lia)) as [Hmf Hef].
  destruct (shr_fexp prec emax (Zpos p'') e' loc_Exact) as [mrs'' e''].
  cbn [fst snd] in Hmf, Hef. cbn [Zdigits2] in Hmf, Hef.
  unfold fexp, emin, prec, emax in Hmf, Hef.
  set (k2 := Z.max (Z.max (Zpos (digits2_pos p'') + e' - 53) (3 - 1024 - 53) - e') 0) in *.
  assert (Hk2 : 0 <= k2 <= Zpos (digits2_pos p'') - 1) by lia.
  pose proof (div_pow2_pos p'' k2 Hk2) as Hmf1. rewrite <- Hmf in Hmf1.
  destruct (shr_m mrs'') as [|mf|mf] eqn:Emf; try lia.
  destruct (e'' <=? emax - prec)%Z eqn:Eov; [|exact I].
  cbn [ge_finite].
  destruct (Z.eq_dec e'' ex) as [Heq|Hne]; [right | left; lia].
  split; [exact Heq|].
  assert (Hk2z : k2 = 0) by lia.
  assert (Hk1v : k1 = ex - e1) by lia.
  rewrite Hk2z in Hmf. cbn in Hmf. rewrite Z.div_1_r in Hmf.
  assert (Hlow : Zpos mx <= Zpos mz / 2 ^ k1).
  { apply Z.div_le_lower_bound; [apply Z.pow_pos_nonneg; lia|].
    rewrite Hk1v. lia. }
  lia.
Qed.

Lemma binary_round_ge (mx : positive) (ex : Z) (M : positive) (ez : Z) :
  bounded prec emax mx ex = true ->
  ez <= ex ->
  Zpos mx * 2 ^ (ex - ez) <= Zpos M ->
  ge_finite mx ex (binary_round prec emax false M ez).
Proof.
  intros Hb Hez HM. unfold binary_round.
  pose proof (shl_align_spec M ez
                (fexp prec emax (Zpos (digits2_pos M) + ez))) as [Hs1 Hs2].
  destruct (shl_align M ez _) as [mz e1]. cbn [fst snd] in Hs1, Hs2.
  apply binary_round_aux_ge; [exact Hb | lia |].
  rewrite Hs2. replace (ex - e1) with ((ex - ez) + (ez - e1)) by lia.
  rewrite Z.pow_add_r by lia.
  assert (0 < 2 ^ (ez - e1)) by (apply Z.pow_pos_nonneg; lia). nia.
Qed.

(** Subtracting a negative number from a non-negative one never gives
    less. *)
Lemma SFsub_negative_ge (x y : spec_float) :
  valid_binary x = true ->
  valid_binary y = true ->
  SFnonneg x = true ->
  SFltb y (S754_zero false) = true ->
  SFleb x (SFsub prec emax x y) = true.
Proof.
  intros Vx Vy Hx Hy.
  destruct x as [sx|sx| |sx mx ex]; try discriminate Hx;
    destruct y as [sy|sy| |sy my ey]; try discriminate Hy;
    try (destruct sx; try discriminate Hx); try (destruct sy; try discriminate Hy);
    try reflexivity.
  cbn [SFsub cond_Zopp]. apply ge_finite_leb.
  pose proof (shl_align_value mx ex (Z.min ex ey) ltac:(lia)) as Hv.
  set (mx' := fst (shl_align mx ex (Z.min ex ey))) in *.
  set (my' := fst (shl_align my ey (Z.min ex ey))) in *.
  change (Zpos mx' - - Zpos my') with (Zpos (mx' + my')).
  cbn [binary_normalize]. apply binary_round_ge; [exact Vx | lia | lia].
Qed.

Lemma float_sub_negative_ge (x y : float) :
  (0 <=? x)%float = true ->
  (y <? 0)%float = true ->
  (x <=? x - y)%float = true.
Proof.
  rewrite !leb_spec, !ltb_spec, sub_spec, Prim2SF_zero.
  apply SFsub_negative_ge; apply Prim2SF_valid.
Qed.

(** ** Evaluation of the Ledger calls *)

Lemma get_balance_eq (c : Z) (w : World) :
  get_balance c w =
  (inr (balance_of w c),
   mkWorld (_customer_balances w) (_daily_stats w) (random_lt w) (random_pos w)
           (CallGetBalance c :: ledger_calls w)).
Proof. reflexivity. Qed.

Lemma deduct_balance_unavailable (c : Z) (a : float) (w : World) :
  random_lt w (random_pos w) = true ->
  deduct_balance c a w =
  (inl (ConnectionError "Balance service temporarily unavailable"),
   mkWorld (_customer_balances w) (_daily_stats w) (random_lt w) (S (random_pos w))
           (CallDeductBalance c a :: ledger_calls w)).
Proof.
  destruct w as [b s r p l]. simpl. intros H.
  unfold deduct_balance. run_m. rewrite H. reflexivity.
Qed.

Lemma deduct_balance_insufficient (c : Z) (a : float) (w : World) :
  random_lt w (random_pos w) = false ->
  (balance_of w c <? a)%float = true ->
  deduct_balance c a w =
  (inr (BalanceResponse.mk false c (balance_of w c) (Some "Insufficient balance")),
   mkWorld (_customer_balances w) (_daily_stats w) (random_lt w) (S (random_pos w))
           (CallDeductBalance c a :: ledger_calls w)).
Proof.
  destruct w as [b s r p l]. unfold balance_of. simpl. intros H Hlt.
  unfold deduct_balance. run_m. rewrite H, Hlt. reflexivity.
Qed.

Lemma deduct_balance_success (c : Z) (a : float) (w : World) :
  random_lt w (random_pos w) = false ->
  (balance_of w c <? a)%float = false ->
  deduct_balance c a w =
  (inr (BalanceResponse.mk true c (balance_of w c - a)%float None),
   mkWorld (<[c := (balance_of w c - a)%float]> (_customer_balances w)) (_daily_stats w)
           (random_lt w) (S (random_pos w))
           (CallDeductBalance c a :: ledger_calls w)).
Proof.
  destruct w as [b s r p l]. unfold balance_of. simpl. intros H Hlt.
  unfold deduct_balance. run_m. rewrite H, Hlt. reflexivity.
Qed.

(** The three ways a call can end, with the world each leaves. *)
Lemma deduct_balance_cases (c : Z) (a : float) (w : World) :
  (random_lt w (random_pos w) = true /\
   deduct_balance c a w =
   (inl (ConnectionError "Balance service temporarily unavailable"),
    mkWorld (_customer_balances w) (_daily_stats w) (random_lt w) (S (random_pos w))
            (CallDeductBalance c a :: ledger_calls w)))
  \/ (random_lt w (random_pos w) = false /\ (balance_of w c <? a)%float = true /\
      deduct_balance c a w =
      (inr (BalanceResponse.mk false c (balance_of w c) (Some "Insufficient balance")),
       mkWorld (_customer_balances w) (_daily_stats w) (random_lt w) (S (random_pos w))
               (CallDeductBalance c a :: ledger_calls w)))
  \/ (random_lt w (random_pos w) = false /\ (balance_of w c <? a)%float = false /\
      deduct_balance c a w =
      (inr (BalanceResponse.mk true c (balance_of w c - a)%float None),
       mkWorld (<[c := (balance_of w c - a)%float]> (_customer_balances w)) (_daily_stats w)
               (random_lt w) (S (random_pos w))
               (CallDeductBalance c a :: ledger_calls w))).
Proof.
  destruct (random_lt w (random_pos w)) eqn:Hr.
  - left. split; [reflexivity|]. now apply deduct_balance_unavailable.
  - right. destruct ((balance_of w c <? a)%float) eqn:Hlt.
    + left. split; [reflexivity|]. split; [reflexivity|].
      now apply deduct_balance_insufficient.
    + right. split; [reflexivity|]. split; [reflexivity|].
      now apply deduct_balance_success.
Qed.

Lemma update_daily_stats_eq (a : float) (w : World) :
  _update_daily_stats a w =
  (inr tt,
   mkWorld (_customer_balances w) (stats_plus a (_daily_stats w)) (random_lt w)
           (random_pos w) (ledger_calls w)).
Proof. reflexivity. Qed.

Lemma after_unavailable_0 (c : Z) (a : float) (w : World) : after_unavailable c a 0 w = w.
Proof.
  destruct w as [b s r p l]. unfold after_unavailable. simpl.
  now rewrite Nat.add_0_r.
Qed.

Lemma after_unavailable_S (c : Z) (a : float) (k : nat) (w : World) :
  after_unavailable c a k
    (mkWorld (_customer_balances w) (_daily_stats w) (random_lt w) (S (random_pos w))
             (CallDeductBalance c a :: ledger_calls w))
  = after_unavailable c a (S k) w.
Proof.
  unfold after_unavailable. simpl. f_equal.
  - lia.
  - change (CallDeductBalance c a :: ledger_calls w)
      with (replicate 1 (CallDeductBalance c a) ++ ledger_calls w).
    rewrite app_assoc, <- replicate_add.
    now replace (k + 1)%nat with (S k) by lia.
Qed.

Lemma unavailable_run_S (w : World) (k : nat) :
  unavailable_run w (S k) ->
  random_lt w (random_pos w) = true /\
  forall c a,
    unavailable_run
      (mkWorld (_customer_balances w) (_daily_stats w) (random_lt w) (S (random_pos w))
               (CallDeductBalance c a :: ledger_calls w)) k.
Proof.
  intros H. split.
  - specialize (H 0%nat). rewrite Nat.add_0_r in H. apply H. lia.
  - intros c a i Hi. specialize (H (S i)).
    destruct w as [b s r p l]. simpl in *.
    rewrite <- H by lia. f_equal. lia.
Qed.

(** Either the next [n] evaluations are all true, or there is a first
    false one among them. *)
Lemma unavailable_run_dec (w : World) (n : nat) :
  unavailable_run w n \/
  exists j, (j < n)%nat /\ unavailable_run w j /\
            random_lt w (random_pos w + j)%nat = false.
Proof.
  induction n as [|n IH].
  - left. intros i Hi. lia.
  - destruct IH as [IH | (j & Hj & Hrun & Hf)].
    + destruct (random_lt w (random_pos w + n)%nat) eqn:E.
      * left. intros i Hi. destruct (decide (i = n)) as [->|Hne]; [exact E|].
        apply IH. lia.
      * right. exists n. split; [lia|]. split; assumption.
    + right. exists j. split; [lia|]. split; assumption.
Qed.

(** ** One round of the retry loop *)

Lemma retry_loop_nil (o : OrderRequest.t) (le : option string) (w : World) :
  retry_loop o [] le w = (inr (Continue le), w).
Proof. reflexivity. Qed.

Lemma retry_loop_cons_unavailable (o : OrderRequest.t) (x : Z) (rest : list Z)
    (le : option string) (w : World) :
  random_lt w (random_pos w) = true ->
  retry_loop o (x :: rest) le w =
  retry_loop o rest (Some unavailable_msg)
    (mkWorld (_customer_balances w) (_daily_stats w) (random_lt w) (S (random_pos w))
       (CallDeductBalance (OrderRequest.customer_id o) (OrderRequest.amount o)
          :: ledger_calls w)).
Proof.
  intros H. cbn [retry_loop]. unfold mbind at 1, M_bind at 1, try_except.
  unfold mbind at 1, M_bind at 1.
  rewrite (deduct_balance_unavailable _ _ _ H). reflexivity.
Qed.

Lemma retry_loop_cons_insufficient (o : OrderRequest.t) (x : Z) (rest : list Z)
    (le : option string) (w : World) :
  random_lt w (random_pos w) = false ->
  (balance_of w (OrderRequest.customer_id o) <? OrderRequest.amount o)%float = true ->
  retry_loop o (x :: rest) le w =
  (inr (Return (error_response o "Insufficient balance")),
   mkWorld (_customer_balances w) (_daily_stats w) (random_lt w) (S (random_pos w))
     (CallDeductBalance (OrderRequest.customer_id o) (OrderRequest.amount o)
        :: ledger_calls w)).
Proof.
  intros H Hlt. cbn [retry_loop]. unfold mbind at 1, M_bind at 1, try_except.
  unfold mbind at 1, M_bind at 1.
  rewrite (deduct_balance_insufficient _ _ _ H Hlt). reflexivity.
Qed.

Lemma retry_loop_cons_success (o : OrderRequest.t) (x : Z) (rest : list Z)
    (le : option string) (w : World) :
  random_lt w (random_pos w) = false ->
  (balance_of w (OrderRequest.customer_id o) <? OrderRequest.amount o)%float = false ->
  retry_loop o (x :: rest) le w =
  (inr (Return (ok_response o
                  (balance_of w (OrderRequest.customer_id o) - OrderRequest.amount o)%float)),
   mkWorld
     (<[OrderRequest.customer_id o :=
          (balance_of w (OrderRequest.customer_id o) - OrderRequest.amount o)%float]>
        (_customer_balances w))
     (stats_plus (OrderRequest.amount o) (_daily_stats w))
     (random_lt w) (S (random_pos w))
     (CallDeductBalance (OrderRequest.customer_id o) (OrderRequest.amount o)
        :: ledger_calls w)).
Proof.
  intros H Hlt. cbn [retry_loop]. unfold mbind at 1, M_bind at 1, try_except.
  unfold mbind at 1, M_bind at 1.
  rewrite (deduct_balance_success _ _ _ H Hlt). reflexivity.
Qed.

(** ** The whole loop *)

(** Every round raised: the loop ends with [last_error] set by the last
    round, or untouched when there was no round. *)
Lemma retry_loop_all_unavailable (o : OrderRequest.t) (attempts : list Z) :
  forall (le : option string) (w : World),
  unavailable_run w (length attempts) ->
  retry_loop o attempts le w =
  (inr (Continue (match attempts with [] => le | _ :: _ => Some unavailable_msg end)),
   after_unavailable (OrderRequest.customer_id o) (OrderRequest.amount o)
     (length attempts) w).
Proof.
  induction attempts as [|x rest IH]; intros le w Hrun.
  - rewrite retry_loop_nil, after_unavailable_0. reflexivity.
  - cbn [length] in *. apply unavailable_run_S in Hrun as [H0 Hrest].
    rewrite (retry_loop_cons_unavailable _ _ _ _ _ H0).
    rewrite IH by apply Hrest.
    rewrite after_unavailable_S. destruct rest; reflexivity.
Qed.

(** [j] rounds raised and round [j] got an answer from the Ledger. *)
Lemma retry_loop_answer (o : OrderRequest.t) (attempts : list Z) :
  forall (j : nat) (le : option string) (w : World),
  (j < length attempts)%nat ->
  unavailable_run w j ->
  random_lt w (random_pos w + j)%nat = false ->
  let c := OrderRequest.customer_id o in
  let a := OrderRequest.amount o in
  retry_loop o attempts le w =
  if (balance_of w c <? a)%float then
    (inr (Return (error_response o "Insufficient balance")),
     after_unavailable c a (S j) w)
  else
    (inr (Return (ok_response o (balance_of w c - a)%float)),
     mkWorld (<[c := (balance_of w c - a)%float]> (_customer_balances w))
       (stats_plus a (_daily_stats w)) (random_lt w) (random_pos w + S j)%nat
       (replicate (S j) (CallDeductBalance c a) ++ ledger_calls w)).
Proof.
  induction attempts as [|x rest IH]; intros j le w Hj Hrun Hf c a.
  - cbn [length] in Hj. lia.
  - destruct j as [|j].
    + rewrite Nat.add_0_r in Hf.
      destruct ((balance_of w c <? a)%float) eqn:Hlt.
      * rewrite (retry_loop_cons_insufficient _ _ _ _ _ Hf Hlt).
        f_equal. unfold after_unavailable. simpl. f_equal. lia.
      * rewrite (retry_loop_cons_success _ _ _ _ _ Hf Hlt).
        f_equal. simpl. f_equal. lia.
    + apply unavailable_run_S in Hrun as [H0 Hrest].
      rewrite (retry_loop_cons_unavailable _ _ _ _ _ H0).
      cbn [length] in Hj.
      rewrite (IH j); [| lia | apply Hrest | ].
      * destruct w as [b s r p l]. unfold balance_of, after_unavailable.
        cbv beta iota delta [_customer_balances _daily_stats random_lt random_pos ledger_calls].
        fold c. fold a.
        assert (Hl : replicate j (CallDeductBalance c a) ++ CallDeductBalance c a :: l
                     = replicate (S j) (CallDeductBalance c a) ++ l).
        { change (CallDeductBalance c a :: l)
            with (replicate 1 (CallDeductBalance c a) ++ l).
          rewrite app_assoc, <- replicate_add. do 2 f_equal. lia. }
        assert (Hp : forall k, (S p + k = p + S k)%nat) by (intros; lia).
        destruct ((default 0%float (b !! c) <? a)%float);
          rewrite !Hp; cbn [replicate app] in *; rewrite ?Hl; reflexivity.
      * destruct w as [b s r p l]. simpl in *. rewrite <- Hf. f_equal. lia.
Qed.

(** ** The four ways [_process_single_order] ends *)

Lemma length_range (n : Z) : length (range n) = Z.to_nat n.
Proof. unfold range. apply length_seqZ. Qed.

Lemma unavailable_run_after_get (c : Z) (w : World) (k : nat) :
  unavailable_run (after_get_balance c w) k <-> unavailable_run w k.
Proof. reflexivity. Qed.

Section Processor.

Variable float_str : float -> string.

Lemma process_invalid_amount (o : OrderRequest.t) (n : Z) (w : World) :
  (OrderRequest.amount o <=? 0)%float = true ->
  _process_single_order float_str o n w =
  (inr (error_response o "Invalid order amount"), w).
Proof.
  intros H. unfold _process_single_order. rewrite H. reflexivity.
Qed.

Lemma process_precheck_fails (o : OrderRequest.t) (n : Z) (w : World) :
  let c := OrderRequest.customer_id o in
  let a := OrderRequest.amount o in
  (a <=? 0)%float = false ->
  (balance_of w c <? a)%float = true ->
  _process_single_order float_str o n w =
  (inr (error_response o
          ("Insufficient balance: " +:+ float_str (balance_of w c)
           +:+ " < " +:+ float_str a)),
   after_get_balance c w).
Proof.
  intros c a H Hlt. unfold _process_single_order. fold a c. rewrite H.
  unfold mbind at 1, M_bind at 1. rewrite get_balance_eq.
  rewrite Hlt. reflexivity.
Qed.

Lemma process_exhausted (o : OrderRequest.t) (n : Z) (w : World) :
  let c := OrderRequest.customer_id o in
  let a := OrderRequest.amount o in
  (a <=? 0)%float = false ->
  (balance_of w c <? a)%float = false ->
  unavailable_run w (Z.to_nat n) ->
  _process_single_order float_str o n w =
  (inr (error_response o
          ("Balance service unavailable after " +:+ pretty n +:+ " retries: "
           +:+ (if decide (0 < n) then unavailable_msg else "None"))),
   after_unavailable c a (Z.to_nat n) (after_get_balance c w)).
Proof.
  intros c a H Hlt Hrun. unfold _process_single_order. fold a c. rewrite H.
  unfold mbind at 1, M_bind at 1. rewrite get_balance_eq.
  rewrite Hlt.
  unfold mbind at 1, M_bind at 1.
  fold (after_get_balance c w).
  rewrite retry_loop_all_unavailable
    by (rewrite length_range; now apply unavailable_run_after_get).
  rewrite length_range. fold c a.
  replace (match range n with [] => None | _ :: _ => Some unavailable_msg end)
    with (if decide (0 < n) then Some unavailable_msg else None).
  - destruct (decide (0 < n)); reflexivity.
  - pose proof (length_range n) as Hlen.
    destruct (decide (0 < n)), (range n); cbn [length] in Hlen; try reflexivity; lia.
Qed.

Lemma process_success (o : OrderRequest.t) (n : Z) (w : World) (j : nat) :
  let c := OrderRequest.customer_id o in
  let a := OrderRequest.amount o in
  (a <=? 0)%float = false ->
  (balance_of w c <? a)%float = false ->
  (j < Z.to_nat n)%nat ->
  unavailable_run w j ->
  random_lt w (random_pos w + j)%nat = false ->
  _process_single_order float_str o n w =
  (inr (ok_response o (balance_of w c - a)%float),
   mkWorld (<[c := (balance_of w c - a)%float]> (_customer_balances w))
     (stats_plus a (_daily_stats w)) (random_lt w) (random_pos w + S j)%nat
     (replicate (S j) (CallDeductBalance c a) ++ CallGetBalance c :: ledger_calls w)).
Proof.
  intros c a H Hlt Hj Hrun Hf. unfold _process_single_order. fold a c. rewrite H.
  unfold mbind at 1, M_bind at 1. rewrite get_balance_eq.
  rewrite Hlt.
  unfold mbind at 1, M_bind at 1.
  fold (after_get_balance c w).
  rewrite (retry_loop_answer o (range n) j None (after_get_balance c w));
    [ | now rewrite length_range | now apply unavailable_run_after_get | exact Hf ].
  fold c a.
  change (balance_of (after_get_balance c w) c) with (balance_of w c).
  rewrite Hlt. reflexivity.
Qed.

(** Every call ends in one of the four ways. *)
Lemma process_single_order_cases (o : OrderRequest.t) (n : Z) (w : World) :
  let c := OrderRequest.customer_id o in
  let a := OrderRequest.amount o in
  let run := _process_single_order float_str o n w in
  ((a <=? 0)%float = true /\ run = (inr (error_response o "Invalid order amount"), w))
  \/ ((a <=? 0)%float = false /\ (balance_of w c <? a)%float = true /\
      run = (inr (error_response o
                    ("Insufficient balance: " +:+ float_str (balance_of w c)
                     +:+ " < " +:+ float_str a)),
             after_get_balance c w))
  \/ ((a <=? 0)%float = false /\ (balance_of w c <? a)%float = false /\
      unavailable_run w (Z.to_nat n) /\
      run = (inr (error_response o
                    ("Balance service unavailable after " +:+ pretty n +:+ " retries: "
                     +:+ (if decide (0 < n) then unavailable_msg else "None"))),
             after_unavailable c a (Z.to_nat n) (after_get_balance c w)))
  \/ ((a <=? 0)%float = false /\ (balance_of w c <? a)%float = false /\
      exists j, (j < Z.to_nat n)%nat /\ unavailable_run w j /\
                random_lt w (random_pos w + j)%nat = false /\
      run = (inr (ok_response o (balance_of w c - a)%float),
             mkWorld (<[c := (balance_of w c - a)%float]> (_customer_balances w))
               (stats_plus a (_daily_stats w)) (random_lt w) (random_pos w + S j)%nat
               (replicate (S j) (CallDeductBalance c a)
                  ++ CallGetBalance c :: ledger_calls w))).
Proof.
  intros c a run. subst run.
  destruct ((a <=? 0)%float) eqn:Ha.
  { left. split; [reflexivity|]. now apply process_invalid_amount. }
  right.
  destruct ((balance_of w c <? a)%float) eqn:Hlt.
  { left. split; [reflexivity|]. split; [reflexivity|].
    now apply process_precheck_fails. }
  right.
  destruct (unavailable_run_dec w (Z.to_nat n)) as [Hrun | (j & Hj & Hrun & Hf)].
  - left. split; [reflexivity|]. split; [reflexivity|]. split; [exact Hrun|].
    now apply process_exhausted.
  - right. split; [reflexivity|]. split; [reflexivity|]. exists j.
    repeat (split; [assumption|]). now apply process_success.
Qed.

End Processor.

(** ** The Order Processor *)

Lemma balance_of_insert_eq (b : gmap Z float) (s : DailyStats) (r : nat -> bool) (p : nat)
    (l : list LedgerCall) (c : Z) (v : float) :
  balance_of (mkWorld (<[c := v]> b) s r p l) c = v.
Proof. unfold balance_of. simpl. now rewrite lookup_insert_eq. Qed.

Lemma balance_of_insert_ne (b : gmap Z float) (s : DailyStats) (r : nat -> bool) (p : nat)
    (l : list LedgerCall) (c c' : Z) (v : float) :
  c' <> c ->
  balance_of (mkWorld (<[c := v]> b) s r p l) c' = default 0%float (b !! c').
Proof. intros H. unfold balance_of. simpl. now rewrite lookup_insert_ne by congruence. Qed.

(** The balance a response with status "ok" leaves behind. *)
Lemma process_ok_balance (float_str : float -> string) (o : OrderRequest.t) (n : Z)
    (w : World) (r : OrderResponse.t) (w' : World) :
  _process_single_order float_str o n w = (inr r, w') ->
  OrderResponse.status r = "ok" ->
  balance_of w' (OrderRequest.customer_id o)
  = (balance_of w (OrderRequest.customer_id o) - OrderRequest.amount o)%float.
Proof.
  intros E Hok.
  destruct (process_single_order_cases float_str o n w)
    as [(_ & E0) | [(_ & _ & E0) | [(_ & _ & _ & E0) | (_ & _ & j & _ & _ & _ & E0)]]];
    rewrite E in E0; injection E0 as -> ->; try discriminate Hok.
  apply balance_of_insert_eq.
Qed.

(** C7. An order for which [amount <= 0] holds (a zero or a negative
    amount) is answered with the error "Invalid order amount" and the world
    is returned as it was received: the call log has no new entry (neither
    [get_balance] nor [deduct_balance] was called), and the balances, the
    statistics and the random state are untouched. *)
Theorem invalid_amount_short_circuit (float_str : float -> string) (o : OrderRequest.t)
    (max_retries : Z) (w : World) :
  (OrderRequest.amount o <=? 0)%float = true ->
  let run := _process_single_order float_str o max_retries w in
  fst run = inr (OrderResponse.mk (OrderRequest.id o) "error" (OrderRequest.priority o)
                   (Some "Invalid order amount") None)
  /\ snd run = w
  /\ ledger_calls (snd run) = ledger_calls w
  /\ _customer_balances (snd run) = _customer_balances w
  /\ _daily_stats (snd run) = _daily_stats w.
Proof.
  intros Ha run. subst run.
  rewrite process_invalid_amount by exact Ha.
  repeat split.
Qed.

Lemma invalid_amount_short_circuit_witness :
  let o := OrderRequest.mk 1 1 0%float false in
  let w := initial_world (fun _ => false) in
  fst (_process_single_order (fun _ => "") o 3 w)
  = inr (OrderResponse.mk 1 "error" false (Some "Invalid order amount") None)
  /\ snd (_process_single_order (fun _ => "") o 3 w) = w.
Proof.
  intros o w.
  assert (Ha : (OrderRequest.amount o <=? 0)%float = true) by reflexivity.
  destruct (invalid_amount_short_circuit (fun _ => "") o 3 w Ha) as (H1 & H2 & _).
  split; [exact H1 | exact H2].
Defined.

(** C9. Whatever the order, the retry limit and the outcomes of the
    Ledger's failure draws, [_process_single_order] returns (it raises
    nothing), and what it returns is a well-formed response: the id and the
    priority are those of the order, and either the status is "ok" with a
    new balance and no message, or the status is "error" with a message and
    no new balance.  Every kind of failure ends in an error response: an
    amount with [amount <= 0] gives "Invalid order amount"; a balance below
    the amount gives the "Insufficient balance: ..." message; calls that
    all raise up to the retry limit give the "Balance service unavailable
    ..." message; and a refusal by the Ledger itself (success=False) makes
    the retry loop return at once with an error carrying the Ledger's
    message. *)
Theorem process_single_order_never_raises (float_str : float -> string)
    (o : OrderRequest.t) (max_retries : Z) (w : World) :
  let c := OrderRequest.customer_id o in
  let a := OrderRequest.amount o in
  exists r : OrderResponse.t,
    fst (_process_single_order float_str o max_retries w) = inr r
    /\ OrderResponse.id r = OrderRequest.id o
    /\ OrderResponse.priority r = OrderRequest.priority o
    /\ ((OrderResponse.status r = "ok" /\ OrderResponse.message r = None
         /\ is_Some (OrderResponse.new_balance r))
        \/ (OrderResponse.status r = "error" /\ is_Some (OrderResponse.message r)
            /\ OrderResponse.new_balance r = None))
    /\ ((a <=? 0)%float = true ->
        OrderResponse.status r = "error"
        /\ OrderResponse.message r = Some "Invalid order amount")
    /\ ((a <=? 0)%float = false -> (balance_of w c <? a)%float = true ->
        OrderResponse.status r = "error"
        /\ OrderResponse.message r
           = Some ("Insufficient balance: " +:+ float_str (balance_of w c)
                   +:+ " < " +:+ float_str a))
    /\ ((a <=? 0)%float = false -> (balance_of w c <? a)%float = false ->
        unavailable_run w (Z.to_nat max_retries) ->
        OrderResponse.status r = "error"
        /\ OrderResponse.message r
           = Some ("Balance service unavailable after " +:+ pretty max_retries
                   +:+ " retries: "
                   +:+ (if decide (0 < max_retries)
                        then "Balance service temporarily unavailable"
                        else "None")))
    /\ (forall (attempt : Z) (rest : list Z) (last_error : option string) (w0 : World),
          random_lt w0 (random_pos w0) = false ->
          (balance_of w0 c <? a)%float = true ->
          fst (retry_loop o (attempt :: rest) last_error w0)
          = inr (Return (OrderResponse.mk (OrderRequest.id o) "error"
                           (OrderRequest.priority o) (Some "Insufficient balance") None))).
Proof.
  intros c a.
  assert (Hloop : forall (attempt : Z) (rest : list Z) (last_error : option string)
                         (w0 : World),
             random_lt w0 (random_pos w0) = false ->
             (balance_of w0 c <? a)%float = true ->
             fst (retry_loop o (attempt :: rest) last_error w0)
             = inr (Return (OrderResponse.mk (OrderRequest.id o) "error"
                              (OrderRequest.priority o) (Some "Insufficient balance")
                              None))).
  { intros x rest le w0 Hr Hlt.
    now rewrite (retry_loop_cons_insufficient o x rest le w0 Hr Hlt). }
  destruct (process_single_order_cases float_str o max_retries w)
    as [(Ha & E) | [(Ha & Hb & E) | [(Ha & Hb & Hrun & E)
                                    | (Ha & Hb & j & Hj & Hrun & Hf & E)]]];
    fold c a in Ha; try fold c a in Hb;
    rewrite E; eexists; (split; [reflexivity|]); cbn [fst];
    (split; [reflexivity|]); (split; [reflexivity|]).
  - split; [right; repeat split; eexists; reflexivity|].
    split; [intros _; split; reflexivity|].
    split; [intros H; congruence|]. split; [intros H; congruence | exact Hloop].
  - split; [right; repeat split; eexists; reflexivity|].
    split; [intros H; congruence|].
    split; [intros _ _; split; reflexivity|].
    split; [intros _ H; congruence | exact Hloop].
  - split; [right; repeat split; eexists; reflexivity|].
    split; [intros H; congruence|].
    split; [intros _ H; congruence|].
    split; [intros _ _ _; split; reflexivity | exact Hloop].
  - split; [left; repeat split; eexists; reflexivity|].
    split; [intros H; congruence|].
    split; [intros _ H; congruence|].
    split; [|exact Hloop].
    intros _ _ Hall. rewrite (Hall j Hj) in Hf. discriminate Hf.
Qed.

(** C3. A call produces one response.  When its status is "ok", the
    customer's stored balance is the old one minus the amount (one
    subtraction), the response carries it, and the statistics are the old
    ones with the amount added to the revenue and one added to the count;
    every other balance is as before.  When its status is anything else,
    the balances and the statistics are exactly as before.  This holds for
    every sequence of failure draws, hence for any number of rounds that
    raised before the Ledger answered. *)
Theorem process_single_order_exactly_once (float_str : float -> string)
    (o : OrderRequest.t) (max_retries : Z) (w : World) :
  let c := OrderRequest.customer_id o in
  let a := OrderRequest.amount o in
  exists (r : OrderResponse.t) (w' : World),
    _process_single_order float_str o max_retries w = (inr r, w')
    /\ (OrderResponse.status r = "ok" ->
        _customer_balances w' = <[c := (balance_of w c - a)%float]> (_customer_balances w)
        /\ balance_of w' c = (balance_of w c - a)%float
        /\ (forall c', c' <> c -> balance_of w' c' = balance_of w c')
        /\ OrderResponse.new_balance r = Some (balance_of w c - a)%float
        /\ _daily_stats w' = mkStats (total_revenue (_daily_stats w) + a)%float
                                     (order_count (_daily_stats w) + 1))
    /\ (OrderResponse.status r <> "ok" ->
        _customer_balances w' = _customer_balances w
        /\ _daily_stats w' = _daily_stats w).
Proof.
  intros c a.
  destruct (process_single_order_cases float_str o max_retries w)
    as [(_ & E) | [(_ & _ & E) | [(_ & _ & _ & E) | (_ & _ & j & _ & _ & _ & E)]]];
    rewrite E; do 2 eexists; (split; [reflexivity|]); cbn.
  1-3: split; [discriminate | intros _; split; reflexivity].
  split; [|intros H; now contradiction H].
  intros _. fold c a.
  split; [reflexivity|]. split; [apply balance_of_insert_eq|].
  split; [|split; reflexivity].
  intros c' Hc'. now apply balance_of_insert_ne.
Qed.

(** C6. For an order that passes the amount check ([amount <= 0] is
    false) and the balance pre-check ([balance < amount] is false), let [k] be the number of [deduct_balance] calls the
    processor makes (the advance of the random state; the call log grows by
    exactly that many [deduct_balance] entries for this customer and
    amount, on top of the one [get_balance]).  Then [k] is at most
    [max_retries]; every call that was followed by another one had raised
    [ConnectionError]; a call that got an answer from the Ledger was the
    last one; and when the first [max_retries] calls all raise, the
    response is an error whose message spells out [max_retries] and the
    text of the last [ConnectionError] (the text "None" when
    [max_retries] allowed no call at all).  [create_order] uses the
    default limit, 3. *)
Theorem retry_at_most_max_retries (float_str : float -> string) (o : OrderRequest.t)
    (max_retries : Z) (w : World) :
  let c := OrderRequest.customer_id o in
  let a := OrderRequest.amount o in
  (a <=? 0)%float = false ->
  (balance_of w c <? a)%float = false ->
  exists (r : OrderResponse.t) (w' : World) (k : nat),
    _process_single_order float_str o max_retries w = (inr r, w')
    /\ random_pos w' = (random_pos w + k)%nat
    /\ ledger_calls w' =
       replicate k (CallDeductBalance c a) ++ CallGetBalance c :: ledger_calls w
    /\ (Z.of_nat k <= Z.max 0 max_retries)
    /\ (forall i, (S i < k)%nat -> random_lt w (random_pos w + i)%nat = true)
    /\ (forall i, (i < k)%nat -> random_lt w (random_pos w + i)%nat = false ->
                  S i = k /\ OrderResponse.status r = "ok")
    /\ (unavailable_run w (Z.to_nat max_retries) ->
        Z.of_nat k = Z.max 0 max_retries
        /\ r = OrderResponse.mk (OrderRequest.id o) "error" (OrderRequest.priority o)
                 (Some ("Balance service unavailable after " +:+ pretty max_retries
                        +:+ " retries: "
                        +:+ (if decide (0 < max_retries)
                             then "Balance service temporarily unavailable"
                             else "None")))
                 None)
    /\ create_order float_str o w = _process_single_order float_str o 3 w.
Proof.
  intros c a Hpos Hle.
  destruct (process_single_order_cases float_str o max_retries w)
    as [(Hn & _) | [(_ & Hlt & _) | [(_ & _ & Hrun & E) | (_ & _ & j & Hj & Hrun & Hf & E)]]].
  - fold c a in Hn. congruence.
  - fold c a in Hlt. congruence.
  - rewrite E. exists
      (error_response o
         ("Balance service unavailable after " +:+ pretty max_retries +:+ " retries: "
          +:+ (if decide (0 < max_retries) then unavailable_msg else "None"))),
      (after_unavailable c a (Z.to_nat max_retries) (after_get_balance c w)),
      (Z.to_nat max_retries).
    split; [reflexivity|]. split; [reflexivity|]. split; [reflexivity|].
    split; [lia|]. split; [intros i Hi; apply Hrun; lia|].
    split; [intros i Hi Hfi; rewrite Hrun in Hfi by exact Hi; discriminate|].
    split; [|reflexivity].
    intros _. split; [lia | reflexivity].
  - rewrite E. do 2 eexists. exists (S j).
    split; [reflexivity|]. split; [reflexivity|]. split; [reflexivity|].
    split; [lia|]. split; [intros i Hi; apply Hrun; lia|].
    split.
    + intros i Hi Hfi. split; [|reflexivity].
      destruct (decide (i = j)) as [->|Hne]; [reflexivity|].
      rewrite Hrun in Hfi by lia. discriminate.
    + split; [|reflexivity].
      intros Hall. rewrite Hall in Hf by exact Hj. discriminate.
Qed.

Lemma retry_at_most_max_retries_witness :
  exists (r : OrderResponse.t) (w' : World),
    create_order (fun _ => "") (OrderRequest.mk 7 2 10%float false)
      (initial_world (fun _ => true)) = (inr r, w')
    /\ random_pos w' = 3%nat
    /\ OrderResponse.message r =
       Some "Balance service unavailable after 3 retries: Balance service temporarily unavailable".
Proof.
  pose (o := OrderRequest.mk 7 2 10%float false).
  pose (w := initial_world (fun _ => true)).
  assert (Hpos : (OrderRequest.amount o <=? 0)%float = false) by reflexivity.
  assert (Hle : (balance_of w (OrderRequest.customer_id o) <? OrderRequest.amount o)%float
                = false) by reflexivity.
  destruct (retry_at_most_max_retries (fun _ => "") o 3 w Hpos Hle)
    as (r & w' & k & E & Hp & _ & _ & _ & _ & Hall & Hc).
  exists r, w'. fold o w. rewrite Hc. split; [exact E|].
  assert (Hrun : unavailable_run w (Z.to_nat 3)) by (intros i _; reflexivity).
  destruct (Hall Hrun) as [Hk ->]. split; [|reflexivity].
  rewrite Hp. simpl in *. lia.
Defined.

(** ** The Ledger *)

(** C5. When [deduct_balance] raises, the exception is the
    [ConnectionError] of the failure draw, and the balances and the
    statistics are what they were before the call.  The draw comes before
    any look at the accounts: with the same random state the call raises
    the same exception over any balances and any statistics. *)
Theorem deduct_balance_failure_leaves_state (c : Z) (a : float) (w : World) (e : PyExc) :
  fst (deduct_balance c a w) = inl e ->
  e = ConnectionError "Balance service temporarily unavailable"
  /\ random_lt w (random_pos w) = true
  /\ _customer_balances (snd (deduct_balance c a w)) = _customer_balances w
  /\ _daily_stats (snd (deduct_balance c a w)) = _daily_stats w
  /\ (forall (b : gmap Z float) (s : DailyStats) (c' : Z) (a' : float),
        fst (deduct_balance c' a'
               (mkWorld b s (random_lt w) (random_pos w) (ledger_calls w))) = inl e).
Proof.
  destruct (deduct_balance_cases c a w) as [(Hr & E) | [(_ & _ & E) | (_ & _ & E)]];
    rewrite E; cbn [fst snd]; intros H; [|discriminate H..].
  injection H as <-. repeat split; try assumption.
  intros b s c' a'. now rewrite deduct_balance_unavailable.
Qed.

Lemma deduct_balance_failure_leaves_state_witness :
  _customer_balances (snd (deduct_balance 1 50%float (initial_world (fun _ => true))))
  = seed_balances.
Proof.
  assert (H : fst (deduct_balance 1 50%float (initial_world (fun _ => true)))
              = inl (ConnectionError "Balance service temporarily unavailable"))
    by reflexivity.
  destruct (deduct_balance_failure_leaves_state _ _ _ _ H) as (_ & _ & Hb & _).
  exact Hb.
Defined.

(** C4. A [deduct_balance] call whose failure draw is negative compares
    the stored balance (0 for an id that is not stored) with the amount.
    If [balance < amount] holds, it answers success=False with the error
    "Insufficient balance" and the balances are unchanged.  Otherwise it
    stores balance - amount for the customer and answers success=True with
    that new balance.  In particular, if customer 1 has 500 and an order of
    50 for customer 1 is answered "ok", [get_balance 1] then returns
    exactly 450. *)
Theorem deduct_balance_checks_then_deducts (c : Z) (a : float) (w : World) :
  random_lt w (random_pos w) = false ->
  let bal := balance_of w c in
  let run := deduct_balance c a w in
  ((bal <? a)%float = true ->
   fst run = inr (BalanceResponse.mk false c bal (Some "Insufficient balance"))
   /\ _customer_balances (snd run) = _customer_balances w)
  /\ ((bal <? a)%float = false ->
      fst run = inr (BalanceResponse.mk true c (bal - a)%float None)
      /\ _customer_balances (snd run) = <[c := (bal - a)%float]> (_customer_balances w)
      /\ balance_of (snd run) c = (bal - a)%float)
  /\ (forall (float_str : float -> string) (oid : Z) (prio : bool) (n : Z)
             (r : OrderResponse.t) (w' : World),
        balance_of w 1 = 500%float ->
        _process_single_order float_str (OrderRequest.mk oid 1 50%float prio) n w = (inr r, w') ->
        OrderResponse.status r = "ok" ->
        fst (get_balance 1 w') = inr 450%float).
Proof.
  intros Hr bal run. subst run. split; [|split].
  - intros Hlt. rewrite deduct_balance_insufficient; [|exact Hr|exact Hlt].
    split; reflexivity.
  - intros Hge. rewrite deduct_balance_success; [|exact Hr|exact Hge].
    split; [reflexivity|]. split; [reflexivity|]. apply balance_of_insert_eq.
  - intros float_str oid prio n r w' Hbal E Hok.
    pose proof (process_ok_balance float_str _ n w r w' E Hok) as Hb.
    rewrite get_balance_eq. cbn [fst]. f_equal.
    cbn [OrderRequest.customer_id OrderRequest.amount] in Hb.
    rewrite Hb, Hbal. reflexivity.
Qed.

Lemma deduct_balance_checks_then_deducts_witness :
  let run := deduct_balance 1 50%float (initial_world (fun _ => false)) in
  fst run = inr (BalanceResponse.mk true 1 450%float None)
  /\ balance_of (snd run) 1 = 450%float.
Proof.
  intros run. subst run.
  pose (w := initial_world (fun _ => false)).
  assert (Hr : random_lt w (random_pos w) = false) by reflexivity.
  destruct (deduct_balance_checks_then_deducts 1 50%float w Hr) as (_ & Hok & _).
  assert (Hge : (balance_of w 1 <? 50)%float = false) by reflexivity.
  destruct (Hok Hge) as (H1 & _ & H3).
  split; [exact H1 | exact H3].
Defined.

Lemma seed_balances_nonneg (w : World) :
  _customer_balances w = seed_balances -> balances_nonneg w.
Proof.
  intros H c. unfold balance_of. rewrite H. unfold seed_balances.
  repeat (rewrite lookup_insert; case_decide; [reflexivity|]).
  rewrite lookup_empty. reflexivity.
Qed.

Lemma ledger_op_nonneg (op : LedgerOp) (w : World) :
  amount_below_infinity op ->
  balances_nonneg w -> balances_nonneg (ledger_op op w).
Proof.
  intros Hop H. destruct op as [c | c a |]; cbn [ledger_op].
  - rewrite get_balance_eq. exact H.
  - destruct (deduct_balance_cases c a w) as [(_ & E) | [(_ & _ & E) | (_ & Hge & E)]];
      rewrite E; cbn [snd]; try exact H.
    intros c'. destruct (decide (c' = c)) as [->|Hne].
    + rewrite balance_of_insert_eq.
      apply float_sub_nonneg; [apply H | exact Hge | exact Hop].
    + rewrite balance_of_insert_ne by exact Hne. apply H.
  - now apply seed_balances_nonneg.
Qed.

(** C8, as stated, fails.  From the seeded state a [deduct_balance] call
    for customer 1 with the amount NaN is not refused ([500.0 < nan] is
    false) and stores [500.0 - nan], that is NaN, for which [0 <= balance]
    is false.  The amount +infinity does the same once a balance is
    +infinity, which the amount -infinity brings about. *)
Lemma nan_amount_breaks_nonneg :
  let w := initial_world (fun _ => false) in
  balances_nonneg w
  /\ fst (deduct_balance 1 nan w) = inr (BalanceResponse.mk true 1 nan None)
  /\ ~ balances_nonneg (ledger_ops [OpDeductBalance 1 nan] w)
  /\ ~ balances_nonneg
        (ledger_ops [OpDeductBalance 1 neg_infinity; OpDeductBalance 1 infinity] w).
Proof.
  cbv zeta. split; [now apply seed_balances_nonneg|]. split; [reflexivity|].
  split; intros H; specialize (H 1); vm_compute in H; discriminate H.
Qed.

(** C8, amended.  Non-negative balances are an invariant of the Ledger
    for amounts below +infinity.  From a world whose balances are the
    seeded ones, or more generally all satisfy [0 <= balance], any
    sequence of [get_balance], [reset_balances] and [deduct_balance] calls
    (any customer id, any failure draw) whose amounts are below +infinity,
    so neither NaN nor +infinity, leaves every balance with
    [0 <= balance]. *)
Theorem balances_never_negative (w : World) (ops : list LedgerOp) :
  _customer_balances w = seed_balances \/ balances_nonneg w ->
  Forall amount_below_infinity ops ->
  balances_nonneg (ledger_ops ops w).
Proof.
  intros H Hops.
  assert (Hnn : balances_nonneg w)
    by (destruct H as [H|H]; [now apply seed_balances_nonneg | exact H]).
  clear H. revert w Hnn. unfold ledger_ops.
  induction Hops as [|op ops Hop _ IH]; intros w Hnn; cbn [fold_left].
  - exact Hnn.
  - apply IH. now apply ledger_op_nonneg.
Qed.

Lemma balances_never_negative_witness :
  balances_nonneg
    (ledger_ops [OpDeductBalance 5 100; OpDeductBalance 5 1; OpGetBalance 9;
                 OpDeductBalance 3 (-20); OpDeductBalance 3 neg_infinity;
                 OpResetBalances; OpDeductBalance 1 500]
       (initial_world (fun n => Nat.eqb n 1))).
Proof.
  apply balances_never_negative.
  - left. reflexivity.
  - repeat constructor.
Defined.

(** C10, as stated, fails.  In the seeded state customer 1 has 500.0.  A
    [deduct_balance] call with the negative amount -2^-60 answers
    success=True, but [500.0 - (-2^-60)] rounds to 500.0: the stored
    balance is the old one, not strictly more. *)
Lemma tiny_negative_amount_leaves_balance :
  let w := initial_world (fun _ => false) in
  let a := (- 0x1p-60)%float in
  (a <? 0)%float = true
  /\ (0 <=? balance_of w 1)%float = true
  /\ random_lt w (random_pos w) = false
  /\ fst (deduct_balance 1 a w) = inr (BalanceResponse.mk true 1 500 None)
  /\ (balance_of w 1 <? balance_of (snd (deduct_balance 1 a w)) 1)%float = false.
Proof. cbv zeta. repeat split. Qed.

(** C10, amended.  [deduct_balance] does not look at the sign of the
    amount.  For a customer with [0 <= balance] and an amount below zero, a
    call whose failure draw is negative answers success=True and stores the
    float [balance - amount]; that value again satisfies [0 <= balance]
    and is never below the old balance, but it need not exceed it.  The
    public path is closed by [_process_single_order] alone: for such an
    amount it answers "Invalid order amount" and hands the world back
    untouched, without calling the Ledger. *)
Theorem deduct_balance_negative_amount_credits (c : Z) (a : float) (w : World) :
  (a <? 0)%float = true ->
  (0 <=? balance_of w c)%float = true ->
  random_lt w (random_pos w) = false ->
  let bal := balance_of w c in
  let run := deduct_balance c a w in
  fst run = inr (BalanceResponse.mk true c (bal - a)%float None)
  /\ balance_of (snd run) c = (bal - a)%float
  /\ (0 <=? balance_of (snd run) c)%float = true
  /\ (bal <=? balance_of (snd run) c)%float = true
  /\ (forall (float_str : float -> string) (oid : Z) (prio : bool) (n : Z),
        _process_single_order float_str (OrderRequest.mk oid c a prio) n w
        = (inr (OrderResponse.mk oid "error" prio (Some "Invalid order amount") None), w)).
Proof.
  intros Ha Hbal Hr bal run. subst run.
  assert (Hlt : (balance_of w c <? a)%float = false)
    by now apply float_neg_lt_nonneg.
  rewrite (deduct_balance_success _ _ _ Hr Hlt). cbn [fst snd].
  rewrite balance_of_insert_eq. fold bal.
  split; [reflexivity|]. split; [reflexivity|]. split; [|split].
  - apply float_sub_nonneg; [exact Hbal | exact Hlt |].
    now apply float_neg_below_infinity.
  - now apply float_sub_negative_ge.
  - intros float_str oid prio n. apply process_invalid_amount.
    now apply float_neg_le0.
Qed.

Lemma deduct_balance_negative_amount_credits_witness :
  fst (deduct_balance 5 (-25) (initial_world (fun _ => false)))
  = inr (BalanceResponse.mk true 5 125 None).
Proof.
  pose (w := initial_world (fun _ => false)).
  assert (Ha : (-25 <? 0)%float = true) by reflexivity.
  assert (Hb : (0 <=? balance_of w 5)%float = true) by reflexivity.
  assert (Hr : random_lt w (random_pos w) = false) by reflexivity.
  destruct (deduct_balance_negative_amount_credits 5 (-25) w Ha Hb Hr) as (H & _).
  exact H.
Defined.

(** ** The builtin [sorted] *)

Section Sorted.

Context {A : Type} (key : A -> Z).

Lemma insert_by_key_Permutation (x : A) (l : list A) :
  Permutation (insert_by_key key x l) (x :: l).
Proof.
  induction l as [|y l IH]; cbn [insert_by_key]; [reflexivity|].
  destruct (key x <=? key y)%Z; [reflexivity|].
  rewrite IH. apply perm_swap.
Qed.

Lemma sorted_Permutation (l : list A) : Permutation (sorted l key) l.
Proof.
  induction l as [|x l IH]; cbn; [reflexivity|].
  fold (sorted l key). rewrite insert_by_key_Permutation. now constructor.
Qed.

Lemma insert_by_key_sorted (x : A) (l : list A) :
  StronglySorted (fun u v => key u <= key v) l ->
  StronglySorted (fun u v => key u <= key v) (insert_by_key key x l).
Proof.
  induction 1 as [|y l Hs IH Hall]; cbn [insert_by_key].
  - repeat constructor.
  - destruct (Z.leb_spec (key x) (key y)) as [Hle|Hgt].
    + constructor; [now constructor|].
      constructor; [exact Hle|].
      eapply List.Forall_impl; [|exact Hall]. cbn. intros; lia.
    + constructor; [exact IH|].
      eapply Permutation_Forall; [symmetry; apply insert_by_key_Permutation|].
      constructor; [lia | exact Hall].
Qed.

(** The result is in ascending order of the key. *)
Lemma sorted_ascending (l : list A) :
  StronglySorted (fun u v => key u <= key v) (sorted l key).
Proof.
  induction l as [|x l IH]; cbn; [constructor|].
  now apply insert_by_key_sorted.
Qed.

Lemma insert_by_key_filter (k : Z) (x : A) (l : list A) :
  List.filter (fun u => (key u =? k)%Z) (insert_by_key key x l)
  = List.filter (fun u => (key u =? k)%Z) (x :: l).
Proof.
  induction l as [|y l IH]; cbn [insert_by_key]; [reflexivity|].
  destruct (Z.leb_spec (key x) (key y)) as [Hle|Hgt]; [reflexivity|].
  cbn [List.filter] in *. rewrite IH.
  destruct (Z.eqb_spec (key x) k), (Z.eqb_spec (key y) k); try reflexivity; lia.
Qed.

(** The result is stable: the elements of any one key come out in the
    order they went in. *)
Lemma sorted_stable (k : Z) (l : list A) :
  List.filter (fun u => (key u =? k)%Z) (sorted l key)
  = List.filter (fun u => (key u =? k)%Z) l.
Proof.
  induction l as [|x l IH]; cbn [sorted foldr]; [reflexivity|].
  fold (sorted l key). rewrite insert_by_key_filter. cbn [List.filter].
  now rewrite IH.
Qed.

End Sorted.

(** With a boolean key, [sorted] puts the elements whose key is [False]
    first and those whose key is [True] after them, each group in input
    order. *)
Lemma insert_by_bool_key {A : Type} (p : A -> bool) (x : A) (F T : list A) :
  Forall (fun u => p u = false) F ->
  Forall (fun u => p u = true) T ->
  insert_by_key (fun u => Z.b2z (p u)) x (F ++ T)
  = if p x then F ++ x :: T else x :: F ++ T.
Proof.
  intros HF HT. destruct (p x) eqn:Hx.
  - induction HF as [|y F Hy HF IH]; cbn [app insert_by_key].
    + destruct HT as [|y T Hy HT]; cbn [insert_by_key]; [reflexivity|].
      now rewrite Hx, Hy.
    + rewrite Hx, Hy. cbn. now rewrite IH.
  - destruct (F ++ T) as [|y l]; cbn [insert_by_key]; [reflexivity|].
    rewrite Hx. now destruct (p y).
Qed.

Lemma Forall_filter_true {A : Type} (q : A -> bool) (l : list A) :
  Forall (fun u => q u = true) (List.filter q l).
Proof.
  apply List.Forall_forall. intros u Hu. now apply List.filter_In in Hu.
Qed.

Lemma sorted_bool_key {A : Type} (p : A -> bool) (l : list A) :
  sorted l (fun u => Z.b2z (p u))
  = List.filter (fun u => negb (p u)) l ++ List.filter p l.
Proof.
  induction l as [|x l IH]; cbn [sorted foldr]; [reflexivity|].
  fold (sorted l (fun u => Z.b2z (p u))). rewrite IH.
  rewrite insert_by_bool_key.
  - cbn [List.filter]. now destruct (p x).
  - eapply List.Forall_impl; [|apply (Forall_filter_true (fun u => negb (p u)))].
    cbn. intros u Hu. now apply negb_true_iff.
  - apply Forall_filter_true.
Qed.

(** ** The batch endpoint *)

Lemma process_single_order_echo (float_str : float -> string) (o : OrderRequest.t) (n : Z)
    (w : World) :
  exists (r : OrderResponse.t) (w' : World),
    _process_single_order float_str o n w = (inr r, w')
    /\ OrderResponse.id r = OrderRequest.id o
    /\ OrderResponse.priority r = OrderRequest.priority o.
Proof.
  destruct (process_single_order_cases float_str o n w)
    as [(_ & E) | [(_ & _ & E) | [(_ & _ & _ & E) | (_ & _ & j & _ & _ & _ & E)]]];
    rewrite E; do 2 eexists; repeat split.
Qed.

Lemma process_orders_echo (float_str : float -> string) (orders : list OrderRequest.t) :
  forall (results : list OrderResponse.t) (w : World),
  exists (outs : list OrderResponse.t) (w' : World),
    process_orders float_str orders results w = (inr (results ++ outs), w')
    /\ map OrderResponse.id outs = map OrderRequest.id orders
    /\ map OrderResponse.priority outs = map OrderRequest.priority orders.
Proof.
  induction orders as [|o orders IH]; intros results w.
  - exists [], w. rewrite app_nil_r. repeat split.
  - destruct (process_single_order_echo float_str o default_max_retries w)
      as (r & w1 & E & Hid & Hprio).
    destruct (IH (results ++ [r]) w1) as (outs & w' & E' & Hids & Hprios).
    exists (r :: outs), w'. split; [|split].
    + cbn [process_orders]. unfold mbind at 1, M_bind at 1. rewrite E, E'.
      now rewrite <- app_assoc.
    + cbn [map]. now rewrite Hid, Hids.
    + cbn [map]. now rewrite Hprio, Hprios.
Qed.

(** What the batch endpoint returns: the responses of the orders, taken
    in input order, with those of priority [False] first and those of
    priority [True] after them. *)
Lemma create_orders_batch_order (float_str : float -> string) (request : BatchOrderRequest.t)
    (w : World) :
  exists (outs : list OrderResponse.t) (w' : World),
    create_orders_batch float_str request w
    = (inr (List.filter (fun r => negb (OrderResponse.priority r)) outs
            ++ List.filter OrderResponse.priority outs), w')
    /\ map OrderResponse.id outs = map OrderRequest.id (BatchOrderRequest.orders request)
    /\ map OrderResponse.priority outs
       = map OrderRequest.priority (BatchOrderRequest.orders request).
Proof.
  destruct (process_orders_echo float_str (BatchOrderRequest.orders request) [] w)
    as (outs & w' & E & Hids & Hprios).
  exists outs, w'. split; [|split; assumption].
  unfold create_orders_batch. unfold mbind at 1, M_bind at 1. rewrite E.
  cbn [app]. unfold mret, M_ret. now rewrite sorted_bool_key.
Qed.

(** C1 (as the code behaves).  For the batch
    [(id=1, prio=False), (id=2, prio=True), (id=3, prio=False)], with any
    customers and amounts, in any world, the endpoint returns the
    priorities [False, False, True] and the ids [1, 3, 2]: the sort is
    stable (id 1 stays before id 3) but ascending in the priority, so the
    priority order comes last, not first.  The priority sequence is not
    [True, False, False]. *)
Theorem create_orders_batch_puts_priority_last (float_str : float -> string)
    (c1 c2 c3 : Z) (a1 a2 a3 : float) (w : World) :
  exists (results : list OrderResponse.t) (w' : World),
    create_orders_batch float_str
      (BatchOrderRequest.mk [OrderRequest.mk 1 c1 a1 false;
                             OrderRequest.mk 2 c2 a2 true;
                             OrderRequest.mk 3 c3 a3 false]) w
    = (inr results, w')
    /\ map OrderResponse.priority results = [false; false; true]
    /\ map OrderResponse.id results = [1; 3; 2]
    /\ map OrderResponse.priority results <> [true; false; false].
Proof.
  destruct (create_orders_batch_order float_str
              (BatchOrderRequest.mk [OrderRequest.mk 1 c1 a1 false;
                                     OrderRequest.mk 2 c2 a2 true;
                                     OrderRequest.mk 3 c3 a3 false]) w)
    as (outs & w' & E & Hids & Hprios).
  rewrite E. do 2 eexists. split; [reflexivity|].
  destruct outs as [|r1 [|r2 [|r3 [|r4 outs]]]]; try discriminate Hids.
  cbn in Hids, Hprios.
  injection Hids as Hi1 Hi2 Hi3. injection Hprios as Hp1 Hp2 Hp3.
  cbn [List.filter]. rewrite Hp1, Hp2, Hp3. cbn.
  rewrite Hp1, Hp2, Hp3, Hi1, Hi2, Hi3.
  repeat split. discriminate.
Qed.

(** ** The statistics update under a schedule *)

Lemma run_schedule_app (s1 s2 : list nat) :
  forall (threads : list UpdateThread) (stats : DailyStats),
  run_schedule (s1 ++ s2) threads stats =
  run_schedule s2 (fst (run_schedule s1 threads stats))
                  (snd (run_schedule s1 threads stats)).
Proof.
  induction s1 as [|i s1 IH]; intros threads stats; cbn [app run_schedule fst snd].
  - reflexivity.
  - destruct (threads !! i) as [t|]; [|apply IH].
    destruct (update_step t stats) as [t' stats']. apply IH.
Qed.

(** A call that runs without a switch reads and writes the same
    statistics: it adds its amount and one order. *)
Lemma run_alone_spawned (i : nat) (threads : list UpdateThread) (stats : DailyStats)
    (a : float) :
  threads !! i = Some (spawn_update a) ->
  run_schedule (run_alone i) threads stats =
  (<[i := mkThread AtReturn a (total_revenue stats) (order_count stats)]> threads,
   stats_plus a stats).
Proof.
  intros H. pose proof (lookup_lt_Some _ _ _ H) as Hlt.
  unfold run_alone. cbn [replicate run_schedule]. rewrite H.
  unfold spawn_update. cbn [update_step pc amount current_revenue current_count].
  repeat (rewrite list_lookup_insert_eq by (rewrite ?length_insert; exact Hlt);
          cbn [update_step pc amount current_revenue current_count];
          rewrite list_insert_insert_eq).
  reflexivity.
Qed.

(** On its own thread the replay is [_update_daily_stats]. *)
Lemma run_alone_is_update_daily_stats (a : float) (w : World) :
  snd (run_schedule (run_alone 0) [spawn_update a] (_daily_stats w))
  = _daily_stats (snd (_update_daily_stats a w)).
Proof.
  rewrite (run_alone_spawned 0 [spawn_update a] _ a) by reflexivity.
  rewrite update_daily_stats_eq. reflexivity.
Qed.

(** Run one after the other, [N] calls add [N] orders and the sum of
    their amounts: a serial schedule loses nothing. *)
Lemma serial_schedule_counts_all (amounts : list float) :
  forall (finished : list UpdateThread) (stats : DailyStats),
  let run :=
    run_schedule (flat_map run_alone (seq (length finished) (length amounts)))
                 (finished ++ map spawn_update amounts) stats in
  snd run = mkStats (sum_amounts amounts (total_revenue stats))
                    (order_count stats + Z.of_nat (length amounts))
  /\ exists rest, fst run = finished ++ rest
                  /\ length rest = length amounts
                  /\ forallb returned rest = true.
Proof.
  induction amounts as [|a amounts IH]; intros finished stats.
  - cbn. split.
    + destruct stats as [r n]. cbn. f_equal. lia.
    + exists []. now rewrite !app_nil_r.
  - cbv zeta. cbn [length seq flat_map map].
    rewrite run_schedule_app.
    rewrite (run_alone_spawned (length finished) _ stats a)
      by (rewrite lookup_app_r by lia; now rewrite Nat.sub_diag).
    cbn [fst snd].
    rewrite insert_app_r_alt by lia. rewrite Nat.sub_diag. cbn [insert list_insert].
    change (finished ++ ?t :: ?l) with (finished ++ [t] ++ l).
    rewrite app_assoc.
    set (t := mkThread AtReturn a (total_revenue stats) (order_count stats)).
    specialize (IH (finished ++ [t]) (stats_plus a stats)).
    rewrite length_app in IH. cbn [length] in IH.
    replace (length finished + 1)%nat with (S (length finished)) in IH by lia.
    destruct IH as [Hs (rest & Hf & Hlen & Hret)]. split.
    + rewrite Hs. cbn [stats_plus total_revenue order_count sum_amounts fold_left].
      f_equal. lia.
    + exists (t :: rest). rewrite Hf, <- app_assoc. cbn [app length forallb returned].
      repeat split; [now rewrite Hlen | exact Hret].
Qed.

(** X17. Calls of [_update_daily_stats] that do not overlap lose nothing:
    when a pool of fresh calls is run one call after the other, the order
    count grows by the number of calls and the revenue by their amounts,
    added in turn. *)
Lemma serial_schedule_no_lost_update (amounts : list float) (stats : DailyStats) :
  snd (run_schedule (serial_schedule (length amounts)) (map spawn_update amounts) stats)
  = mkStats (sum_amounts amounts (total_revenue stats))
            (order_count stats + Z.of_nat (length amounts)).
Proof. exact (proj1 (serial_schedule_counts_all amounts [] stats)). Qed.

(** C2 (as the code behaves).  Two calls of [_update_daily_stats], each
    for an amount of 10, start from empty statistics.  Under the schedule
    in which each call does its two reads and reaches the sleep before
    either does a write, both calls return, and the statistics show one
    order and a revenue of 10: an update is lost.  The same two calls run
    one after the other give two orders and a revenue of 20. *)
Theorem update_daily_stats_loses_update :
  let threads := [spawn_update 10%float; spawn_update 10%float] in
  let interleaved := [0; 0; 0; 1; 1; 1; 0; 0; 1; 1]%nat in
  let run := run_schedule interleaved threads empty_stats in
  forallb returned (fst run) = true
  /\ snd run = mkStats 10%float 1
  /\ order_count (snd run) <> 2
  /\ snd (run_schedule (serial_schedule 2) threads empty_stats) = mkStats 20%float 2.
Proof.
  cbv zeta. split; [reflexivity|]. split; [reflexivity|].
  split; [|reflexivity]. vm_compute. discriminate.
Qed.

(** * Further properties of the order path *)

(** ** One order *)

(** The effect of one call, in the two shapes the bookkeeping needs. *)
Lemma process_single_order_effect (float_str : float -> string) (o : OrderRequest.t) (n : Z)
    (w : World) :
  let c := OrderRequest.customer_id o in
  let a := OrderRequest.amount o in
  exists (r : OrderResponse.t) (w' : World),
    _process_single_order float_str o n w = (inr r, w')
    /\ OrderResponse.id r = OrderRequest.id o
    /\ OrderResponse.priority r = OrderRequest.priority o
    /\ ((is_ok r = true /\ (a <=? 0)%float = false /\ (balance_of w c <? a)%float = false
         /\ _customer_balances w' = <[c := (balance_of w c - a)%float]> (_customer_balances w)
         /\ _daily_stats w' = stats_plus a (_daily_stats w)
         /\ OrderResponse.new_balance r = Some (balance_of w c - a)%float)
        \/ (is_ok r = false /\ OrderResponse.status r = "error"
            /\ _customer_balances w' = _customer_balances w
            /\ _daily_stats w' = _daily_stats w)).
Proof.
  intros c a.
  destruct (process_single_order_cases float_str o n w)
    as [(_ & E) | [(_ & _ & E) | [(_ & _ & _ & E) | (Hp & Hle & j & _ & _ & _ & E)]]];
    rewrite E; do 2 eexists; (split; [reflexivity|]);
    (split; [reflexivity|]); (split; [reflexivity|]).
  1-3: right; repeat split.
  left. repeat split; assumption.
Qed.

Lemma balance_of_after_insert (w w' : World) (c c' : Z) (v : float) :
  _customer_balances w' = <[c := v]> (_customer_balances w) ->
  balance_of w' c' = if decide (c = c') then v else balance_of w c'.
Proof.
  intros H. unfold balance_of. rewrite H, lookup_insert.
  destruct (decide (c = c')); reflexivity.
Qed.

(** An order that passes both checks with an amount that is a number
    (not NaN) is an order for a stored customer: an id that is not stored
    reads as 0, and a number is either [<= 0] or above 0. *)
Lemma covered_is_stored (w : World) (c : Z) (a : float) :
  (a =? a)%float = true ->
  (a <=? 0)%float = false ->
  (balance_of w c <? a)%float = false ->
  is_Some (_customer_balances w !! c).
Proof.
  intros Hn Hp Hlt. unfold balance_of in Hlt.
  destruct (_customer_balances w !! c) as [b|]; [now eexists|].
  exfalso. cbn in Hlt. rewrite (float_number_pos_or_le0 a Hn Hp) in Hlt.
  discriminate Hlt.
Qed.

(** X1. An order that passes the amount check ([amount <= 0] is false)
    and for which [balance < amount] holds is turned down by the
    pre-check: the response is an error whose message is
    "Insufficient balance: <balance> < <amount>", the only call into the
    balance service is the one [get_balance], no failure draw is consumed,
    and the balances and the statistics are unchanged. *)
Theorem precheck_rejects_without_deduct (float_str : float -> string) (o : OrderRequest.t)
    (max_retries : Z) (w : World) :
  let c := OrderRequest.customer_id o in
  let a := OrderRequest.amount o in
  (a <=? 0)%float = false ->
  (balance_of w c <? a)%float = true ->
  exists w' : World,
    _process_single_order float_str o max_retries w
    = (inr (OrderResponse.mk (OrderRequest.id o) "error" (OrderRequest.priority o)
              (Some ("Insufficient balance: " +:+ float_str (balance_of w c)
                     +:+ " < " +:+ float_str a))
              None), w')
    /\ ledger_calls w' = CallGetBalance c :: ledger_calls w
    /\ random_pos w' = random_pos w
    /\ _customer_balances w' = _customer_balances w
    /\ _daily_stats w' = _daily_stats w.
Proof.
  intros c a Hp Hlt. eexists. split.
  - now apply process_precheck_fails.
  - repeat split.
Qed.

Lemma precheck_rejects_without_deduct_witness :
  exists w' : World,
    _process_single_order (fun _ => "?") (OrderRequest.mk 1 1 10000%float false) 3
      (initial_world (fun _ => false))
    = (inr (OrderResponse.mk 1 "error" false (Some "Insufficient balance: ? < ?") None), w')
    /\ random_pos w' = 0%nat.
Proof.
  pose (o := OrderRequest.mk 1 1 10000%float false).
  pose (w := initial_world (fun _ => false)).
  assert (Hp : (OrderRequest.amount o <=? 0)%float = false) by reflexivity.
  assert (Hlt : (balance_of w (OrderRequest.customer_id o) <? OrderRequest.amount o)%float
                = true) by reflexivity.
  destruct (precheck_rejects_without_deduct (fun _ => "?") o 3 w Hp Hlt)
    as (w' & E & _ & Hpos & _).
  exists w'. split; [exact E | exact Hpos].
Defined.

(** X2. A customer id that is not stored counts as a balance of 0: every
    order with an amount above zero for it is turned down by the pre-check
    with the message "Insufficient balance: <0.0> < <amount>", without a
    [deduct_balance] call, and the id is still not stored afterwards. *)
Theorem unknown_customer_is_rejected (float_str : float -> string) (o : OrderRequest.t)
    (max_retries : Z) (w : World) :
  let c := OrderRequest.customer_id o in
  let a := OrderRequest.amount o in
  _customer_balances w !! c = None ->
  (0 <? a)%float = true ->
  exists w' : World,
    _process_single_order float_str o max_retries w
    = (inr (OrderResponse.mk (OrderRequest.id o) "error" (OrderRequest.priority o)
              (Some ("Insufficient balance: " +:+ float_str 0%float
                     +:+ " < " +:+ float_str a))
              None), w')
    /\ ledger_calls w' = CallGetBalance c :: ledger_calls w
    /\ _customer_balances w' !! c = None.
Proof.
  intros c a Hnone Hp.
  assert (Hb : balance_of w c = 0%float) by (unfold balance_of; now rewrite Hnone).
  eexists. split.
  - rewrite process_precheck_fails.
    + fold c a. rewrite Hb. reflexivity.
    + now apply float_lt0_not_le0.
    + fold c. now rewrite Hb.
  - split; [reflexivity | exact Hnone].
Qed.

Lemma unknown_customer_is_rejected_witness :
  exists w' : World,
    _process_single_order (fun _ => "?") (OrderRequest.mk 8 99 1%float true) 3
      (initial_world (fun _ => false))
    = (inr (OrderResponse.mk 8 "error" true (Some "Insufficient balance: ? < ?") None), w')
    /\ _customer_balances w' !! 99 = None.
Proof.
  pose (o := OrderRequest.mk 8 99 1%float true).
  pose (w := initial_world (fun _ => false)).
  assert (Hn : _customer_balances w !! OrderRequest.customer_id o = None) by reflexivity.
  assert (Hp : (0 <? OrderRequest.amount o)%float = true) by reflexivity.
  destruct (unknown_customer_is_rejected (fun _ => "?") o 3 w Hn Hp) as (w' & E & _ & H).
  exists w'. split; [exact E | exact H].
Defined.

(** X3. On one thread of control an order is answered "ok" exactly when
    it passes both checks as the code makes them ([amount <= 0] is false and
    [balance < amount] is false, which is also the case for a NaN amount)
    and one of the first [max_retries] failure draws is negative. *)
Theorem order_succeeds_iff (float_str : float -> string) (o : OrderRequest.t)
    (max_retries : Z) (w : World) :
  let c := OrderRequest.customer_id o in
  let a := OrderRequest.amount o in
  (exists (r : OrderResponse.t) (w' : World),
      _process_single_order float_str o max_retries w = (inr r, w')
      /\ OrderResponse.status r = "ok")
  <-> ((a <=? 0)%float = false /\ (balance_of w c <? a)%float = false
       /\ exists j, (j < Z.to_nat max_retries)%nat
                    /\ random_lt w (random_pos w + j)%nat = false).
Proof.
  intros c a. split.
  - intros (r & w' & E & Hok).
    destruct (process_single_order_cases float_str o max_retries w)
      as [(_ & E0) | [(_ & _ & E0) | [(_ & _ & _ & E0) | (Hp & Hle & j & Hj & _ & Hf & E0)]]];
      rewrite E in E0; injection E0 as -> ->; try discriminate Hok.
    split; [exact Hp|]. split; [exact Hle|]. now exists j.
  - intros (Hp & Hle & j & Hj & Hf).
    destruct (process_single_order_cases float_str o max_retries w)
      as [(Hn & _) | [(_ & Hlt & _) | [(_ & _ & Hrun & _) | (_ & _ & j' & _ & _ & _ & E0)]]].
    + fold c a in Hn. congruence.
    + fold c a in Hlt. congruence.
    + rewrite Hrun in Hf by exact Hj. discriminate.
    + do 2 eexists. split; [exact E0 | reflexivity].
Qed.

(** X4. Orders whose amount is a number never open or close an account:
    when the amount is not NaN ([amount == amount]), the set of stored
    customer ids is the same after [_process_single_order] as before,
    whatever the result. *)
Theorem process_single_order_keeps_accounts (float_str : float -> string)
    (o : OrderRequest.t) (max_retries : Z) (w : World) :
  (OrderRequest.amount o =? OrderRequest.amount o)%float = true ->
  dom (_customer_balances (snd (_process_single_order float_str o max_retries w)))
  = dom (_customer_balances w).
Proof.
  intros Hn.
  destruct (process_single_order_effect float_str o max_retries w)
    as (r & w' & E & _ & _ & [(_ & Hp & Hle & Hb & _) | (_ & _ & Hb & _)]);
    rewrite E; cbn [snd]; rewrite Hb; [|reflexivity].
  rewrite dom_insert_L.
  pose proof (covered_is_stored _ _ _ Hn Hp Hle) as Hs.
  apply elem_of_dom in Hs. apply subseteq_union_1_L.
  now apply singleton_subseteq_l.
Qed.

Lemma process_single_order_keeps_accounts_witness :
  dom (_customer_balances
         (snd (_process_single_order (fun _ => "?") (OrderRequest.mk 1 1 50 false) 3
                 (initial_world (fun _ => false)))))
  = dom seed_balances.
Proof.
  apply (process_single_order_keeps_accounts (fun _ => "?") (OrderRequest.mk 1 1 50 false)
           3 (initial_world (fun _ => false))).
  reflexivity.
Defined.

(** X5. [deduct_balance] itself does open accounts: for an id that is not
    stored and an amount that is zero or negative, a call whose failure
    draw is negative answers success=True and stores the id with the
    balance [0.0 - amount]. *)
Theorem deduct_balance_opens_account (c : Z) (a : float) (w : World) :
  _customer_balances w !! c = None ->
  (a <=? 0)%float = true ->
  random_lt w (random_pos w) = false ->
  fst (deduct_balance c a w) = inr (BalanceResponse.mk true c (0 - a)%float None)
  /\ _customer_balances (snd (deduct_balance c a w)) !! c = Some (0 - a)%float
  /\ dom (_customer_balances (snd (deduct_balance c a w)))
     = {[c]} ∪ dom (_customer_balances w).
Proof.
  intros Hnone Ha Hr.
  assert (Hb : balance_of w c = 0%float) by (unfold balance_of; now rewrite Hnone).
  rewrite deduct_balance_success; [|exact Hr|].
  - rewrite Hb. cbn [fst snd _customer_balances].
    split; [reflexivity|]. split; [now rewrite lookup_insert_eq|].
    now rewrite dom_insert_L.
  - rewrite Hb. now apply float_le0_not_lt0.
Qed.

Lemma deduct_balance_opens_account_witness :
  _customer_balances (snd (deduct_balance 99 0%float (initial_world (fun _ => false)))) !! 99
  = Some (0 - 0)%float.
Proof.
  pose (w := initial_world (fun _ => false)).
  assert (Hn : _customer_balances w !! 99 = None) by reflexivity.
  assert (Ha : (0 <=? 0)%float = true) by reflexivity.
  assert (Hr : random_lt w (random_pos w) = false) by reflexivity.
  destruct (deduct_balance_opens_account 99 0%float w Hn Ha Hr) as (_ & H & _).
  exact H.
Defined.

(** X7. On one thread of control the processor never passes on the
    Ledger's own refusal: no response carries the message
    "Insufficient balance" that [deduct_balance] attaches to success=False.
    Once the pre-check has passed, the balance the Ledger reads is the one
    the pre-check read. *)
Theorem ledger_refusal_never_surfaces (float_str : float -> string) (o : OrderRequest.t)
    (max_retries : Z) (w : World) (r : OrderResponse.t) (w' : World) :
  _process_single_order float_str o max_retries w = (inr r, w') ->
  OrderResponse.message r <> Some "Insufficient balance".
Proof.
  intros E.
  destruct (process_single_order_cases float_str o max_retries w)
    as [(_ & E0) | [(_ & _ & E0) | [(_ & _ & _ & E0) | (_ & _ & j & _ & _ & _ & E0)]]];
    rewrite E in E0; injection E0 as -> ->; cbn; intros H; discriminate H.
Qed.

Lemma ledger_refusal_never_surfaces_witness :
  OrderResponse.message
    (OrderResponse.mk 1 "error" false (Some "Insufficient balance: ? < ?") None)
  <> Some "Insufficient balance".
Proof.
  pose (o := OrderRequest.mk 1 1 10000%float false).
  pose (w := initial_world (fun _ => false)).
  apply (ledger_refusal_never_surfaces (fun _ => "?") o 3 w _
           (after_get_balance 1 w)).
  reflexivity.
Defined.

(** X8. What the read endpoints show after an order.  If the response
    carries a new balance, [get_balance] and [check_balance] for the
    order's customer report exactly that balance right after the call, and
    [get_stats] reports one more order and the amount added to the
    revenue. *)
Theorem response_agrees_with_queries (float_str : float -> string) (o : OrderRequest.t)
    (max_retries : Z) (w : World) (r : OrderResponse.t) (w' : World) (b : float) :
  let c := OrderRequest.customer_id o in
  _process_single_order float_str o max_retries w = (inr r, w') ->
  OrderResponse.new_balance r = Some b ->
  fst (get_balance c w') = inr b
  /\ fst (check_balance c w')
     = inr (<["customer_id" := PyInt c]> (<["balance" := PyFloat b]> ∅))
  /\ fst (get_stats w')
     = inr (mkStats (total_revenue (_daily_stats w) + OrderRequest.amount o)%float
                    (order_count (_daily_stats w) + 1)).
Proof.
  intros c E Hnb.
  destruct (process_single_order_effect float_str o max_retries w)
    as (r0 & w0 & E0 & _ & _ & [(_ & _ & _ & Hb & Hs & Hn) | (Hno & Herr & _)]);
    rewrite E in E0; injection E0 as <- <-.
  - rewrite Hnb in Hn. injection Hn as ->.
    assert (Hbal : balance_of w' c = (balance_of w c - OrderRequest.amount o)%float).
    { rewrite (balance_of_after_insert w w' _ c _ Hb). fold c.
      destruct (decide (c = c)) as [_|Hne]; [reflexivity | now contradiction Hne]. }
    split; [|split].
    + rewrite get_balance_eq. cbn [fst]. now rewrite Hbal.
    + unfold check_balance, mbind, M_bind. rewrite get_balance_eq.
      unfold mret, M_ret. cbn [fst]. now rewrite Hbal.
    + unfold get_stats, mbind, M_bind, read_stats, mret, M_ret. cbn [fst].
      rewrite Hs. reflexivity.
  - exfalso. destruct (process_single_order_cases float_str o max_retries w)
      as [(_ & E0) | [(_ & _ & E0) | [(_ & _ & _ & E0) | (_ & _ & j & _ & _ & _ & E0)]]];
      rewrite E in E0; injection E0 as -> ->; try discriminate Hnb; discriminate Hno.
Qed.

Lemma response_agrees_with_queries_witness :
  fst (get_balance 1
         (snd (_process_single_order (fun _ => "?") (OrderRequest.mk 1 1 50%float false) 3
                 (initial_world (fun _ => false)))))
  = inr (500 - 50)%float.
Proof.
  pose (o := OrderRequest.mk 1 1 50%float false).
  pose (w := initial_world (fun _ => false)).
  destruct (response_agrees_with_queries (fun _ => "?") o 3 w
              (ok_response o (500 - 50)%float)
              (snd (_process_single_order (fun _ => "?") o 3 w))
              (500 - 50)%float) as (H & _).
  - reflexivity.
  - reflexivity.
  - exact H.
Defined.

(** X19. The amount check lets NaN through.  For every customer, state
    and retry limit of at least one, an order whose amount is NaN and whose
    first failure draw is negative is answered "ok": both checks are false
    for NaN, the Ledger stores NaN as the customer's balance (opening an
    account if the id was not stored), the response carries NaN as the new
    balance, and the total revenue becomes NaN. *)
Theorem nan_amount_is_accepted (float_str : float -> string) (oid c : Z) (prio : bool)
    (max_retries : Z) (w : World) :
  0 < max_retries ->
  random_lt w (random_pos w) = false ->
  exists w' : World,
    _process_single_order float_str (OrderRequest.mk oid c nan prio) max_retries w
    = (inr (OrderResponse.mk oid "ok" prio None (Some nan)), w')
    /\ _customer_balances w' !! c = Some nan
    /\ total_revenue (_daily_stats w') = nan
    /\ order_count (_daily_stats w') = order_count (_daily_stats w) + 1.
Proof.
  intros Hn Hr. eexists. split.
  - rewrite (process_success float_str (OrderRequest.mk oid c nan prio) max_retries w 0).
    + cbn [OrderRequest.customer_id OrderRequest.amount]. unfold ok_response.
      cbn [OrderRequest.id OrderRequest.priority]. rewrite float_sub_nan. reflexivity.
    + reflexivity.
    + apply float_lt_nan.
    + lia.
    + intros i Hi. lia.
    + now rewrite Nat.add_0_r.
  - cbn [_customer_balances _daily_stats stats_plus total_revenue order_count].
    split; [now rewrite lookup_insert_eq|]. split; [apply float_add_nan | reflexivity].
Qed.

Lemma nan_amount_is_accepted_witness :
  exists w' : World,
    _process_single_order (fun _ => "?") (OrderRequest.mk 1 99 nan false) 3
      (initial_world (fun _ => false))
    = (inr (OrderResponse.mk 1 "ok" false None (Some nan)), w')
    /\ _customer_balances w' !! 99 = Some nan.
Proof.
  destruct (nan_amount_is_accepted (fun _ => "?") 1 99 false 3
              (initial_world (fun _ => false))) as (w' & E & Hb & _).
  - lia.
  - reflexivity.
  - exists w'. split; [exact E | exact Hb].
Defined.

(** ** A run of orders *)




(** The batch endpoint as the loop followed by the sort. *)
Lemma create_orders_batch_eq (float_str : float -> string) (request : BatchOrderRequest.t)
    (w : World) (outs : list OrderResponse.t) (w' : World) :
  process_orders float_str (BatchOrderRequest.orders request) [] w = (inr outs, w') ->
  create_orders_batch float_str request w
  = (inr (sorted outs (fun x => Z.b2z (OrderResponse.priority x))), w').
Proof.
  intros E. unfold create_orders_batch. unfold mbind at 1, M_bind at 1.
  now rewrite E.
Qed.



Lemma process_orders_keeps (float_str : float -> string) (P : World -> Prop)
    (G : OrderRequest.t -> Prop) :
  (forall o w, G o -> P w ->
               P (snd (_process_single_order float_str o default_max_retries w))) ->
  forall (orders : list OrderRequest.t),
  Forall G orders ->
  forall (results : list OrderResponse.t) (w : World),
  P w -> P (snd (process_orders float_str orders results w)).
Proof.
  intros Hstep orders HG. induction HG as [|o orders Ho _ IH]; intros results w Hw.
  - exact Hw.
  - cbn [process_orders]. unfold mbind at 1, M_bind at 1.
    specialize (Hstep o w Ho Hw).
    destruct (process_single_order_echo float_str o default_max_retries w)
      as (r & w1 & E & _). rewrite E in Hstep |- *. cbn [snd] in Hstep.
    now apply IH.
Qed.

Lemma process_single_order_nonneg (float_str : float -> string) (o : OrderRequest.t) (n : Z)
    (w : World) :
  (OrderRequest.amount o <? infinity)%float = true ->
  balances_nonneg w -> balances_nonneg (snd (_process_single_order float_str o n w)).
Proof.
  intros Hinf H.
  destruct (process_single_order_effect float_str o n w)
    as (r & w' & E & _ & _ & [(_ & _ & Hle & Hb & _) | (_ & _ & Hb & _)]);
    rewrite E; cbn [snd]; intros c.
  - rewrite (balance_of_after_insert w w' _ c _ Hb).
    destruct (decide (OrderRequest.customer_id o = c)); [|apply H].
    apply float_sub_nonneg; [apply H | exact Hle | exact Hinf].
  - unfold balance_of. rewrite Hb. apply H.
Qed.

(** X12. The order path keeps balances non-negative for amounts below
    +infinity: if [0 <= balance] holds for every balance before, it holds
    after a single order and after a whole batch, provided no amount is NaN
    or +infinity, whatever the failure draws (one thread of control). *)
Theorem orders_keep_balances_nonneg (float_str : float -> string)
    (request : BatchOrderRequest.t) (o : OrderRequest.t) (w : World) :
  balances_nonneg w ->
  (OrderRequest.amount o <? infinity)%float = true ->
  Forall (fun o => (OrderRequest.amount o <? infinity)%float = true)
         (BatchOrderRequest.orders request) ->
  balances_nonneg (snd (create_order float_str o w))
  /\ balances_nonneg (snd (create_orders_batch float_str request w)).
Proof.
  intros H Ho Hall. split; [now apply process_single_order_nonneg|].
  pose proof (process_orders_keeps float_str balances_nonneg
                (fun o => (OrderRequest.amount o <? infinity)%float = true)
                (fun o w Hinf => process_single_order_nonneg float_str o _ w Hinf)
                (BatchOrderRequest.orders request) Hall [] w H) as Hb.
  destruct (process_orders_echo float_str (BatchOrderRequest.orders request) [] w)
    as (outs & w' & E & _).
  rewrite E in Hb. cbn [app] in E.
  now rewrite (create_orders_batch_eq _ _ _ _ _ E).
Qed.

Lemma orders_keep_balances_nonneg_witness :
  balances_nonneg
    (snd (create_orders_batch (fun _ => "?")
            (BatchOrderRequest.mk [OrderRequest.mk 1 5 60 false;
                                   OrderRequest.mk 2 5 60 true])
            (initial_world (fun _ => false)))).
Proof.
  apply (orders_keep_balances_nonneg (fun _ => "?") _ (OrderRequest.mk 0 0 0 false)).
  - now apply seed_balances_nonneg.
  - reflexivity.
  - repeat constructor.
Defined.

Lemma map_filter_echo {A B C : Type} (f1 : A -> C) (f2 : B -> C) (p1 : A -> bool)
    (p2 : B -> bool) (l1 : list A) :
  forall l2 : list B,
  map f1 l1 = map f2 l2 -> map p1 l1 = map p2 l2 ->
  map f1 (List.filter p1 l1) = map f2 (List.filter p2 l2).
Proof.
  induction l1 as [|x l1 IH]; intros [|y l2] Hf Hp; try discriminate; [reflexivity|].
  cbn in Hf, Hp. injection Hf as Hx Hf. injection Hp as Hpx Hp.
  cbn [List.filter]. rewrite Hpx. destruct (p2 y); cbn [map]; rewrite ?Hx;
    now rewrite (IH l2 Hf Hp).
Qed.

Lemma filter_ext_bool {A : Type} (f g : A -> bool) (l : list A) :
  (forall x, f x = g x) -> List.filter f l = List.filter g l.
Proof.
  intros H. induction l as [|x l IH]; cbn; [reflexivity|].
  rewrite H, IH. reflexivity.
Qed.

(** X13. The batch endpoint answers every order once and keeps each
    priority class in input order: the result has as many responses as
    there are orders, the ids of its priority responses are the ids of the
    priority orders in input order, and likewise for the others.  An empty
    batch returns the empty list and leaves the world as it was. *)
Theorem batch_keeps_order_within_priority (float_str : float -> string)
    (request : BatchOrderRequest.t) (w : World) :
  let orders := BatchOrderRequest.orders request in
  exists (results : list OrderResponse.t) (w' : World),
    create_orders_batch float_str request w = (inr results, w')
    /\ length results = length orders
    /\ map OrderResponse.id (List.filter OrderResponse.priority results)
       = map OrderRequest.id (List.filter OrderRequest.priority orders)
    /\ map OrderResponse.id
         (List.filter (fun r => negb (OrderResponse.priority r)) results)
       = map OrderRequest.id (List.filter (fun o => negb (OrderRequest.priority o)) orders)
    /\ (orders = [] -> results = [] /\ w' = w).
Proof.
  intros orders.
  destruct (process_orders_echo float_str orders [] w) as (outs & w' & E & Hids & Hprios).
  cbn [app] in E.
  set (key := fun x => Z.b2z (OrderResponse.priority x)).
  exists (sorted outs key), w'.
  split; [now apply create_orders_batch_eq|].
  split; [|split; [|split]].
  - rewrite (Permutation_length (sorted_Permutation key outs)).
    rewrite <- (length_map OrderResponse.id outs), Hids. apply length_map.
  - rewrite (filter_ext_bool OrderResponse.priority (fun u => (key u =? 1)%Z))
      by (intros x; unfold key; now destruct (OrderResponse.priority x)).
    rewrite sorted_stable.
    rewrite <- (filter_ext_bool OrderResponse.priority (fun u => (key u =? 1)%Z))
      by (intros x; unfold key; now destruct (OrderResponse.priority x)).
    now apply map_filter_echo.
  - rewrite (filter_ext_bool (fun r => negb (OrderResponse.priority r))
               (fun u => (key u =? 0)%Z))
      by (intros x; unfold key; now destruct (OrderResponse.priority x)).
    rewrite sorted_stable.
    rewrite <- (filter_ext_bool (fun r => negb (OrderResponse.priority r))
                  (fun u => (key u =? 0)%Z))
      by (intros x; unfold key; now destruct (OrderResponse.priority x)).
    apply map_filter_echo; [exact Hids|].
    rewrite <- (map_map OrderResponse.priority negb outs).
    rewrite <- (map_map OrderRequest.priority negb orders).
    now rewrite Hprios.
  - intros Hnil. subst orders. rewrite Hnil in E. cbn in E.
    injection E as <- <-. split; reflexivity.
Qed.

(** * The legacy functions *)

Lemma amount_trichotomy (d : gmap string PyVal) :
  (amount_rejected d = true /\ amount_positive d = false /\ amount_is_str d = false)
  \/ (amount_rejected d = false /\ amount_positive d = true /\ amount_is_str d = false)
  \/ (amount_rejected d = false /\ amount_positive d = false /\ amount_is_str d = true).
Proof.
  unfold amount_rejected, amount_positive, amount_is_str.
  destruct (d !! "amount") as [[|[|]|z|q|s]|]; cbn; auto.
  - destruct (Z.leb_spec z 0), (Z.ltb_spec 0 z); auto; lia.
  - destruct ((q <=? 0)%float); cbn; auto.
Qed.

(** What one round of the loop does, by the kind of amount. *)
Lemma handle_order_rejected (d : gmap string PyVal) :
  amount_rejected d = true ->
  handle_order d = inr (legacy_error (dict_get d "id")).
Proof.
  unfold amount_rejected, handle_order.
  destruct (d !! "amount") as [[|[|]|z|q|s]|]; cbn; intros H;
    try reflexivity; try discriminate H; now rewrite H.
Qed.

Lemma handle_order_str (d : gmap string PyVal) :
  amount_is_str d = true -> handle_order d = inl TypeError.
Proof.
  unfold amount_is_str, handle_order.
  destruct (d !! "amount") as [[|[|]|z|q|s]|]; cbn; intros H;
    try discriminate H; reflexivity.
Qed.

Lemma handle_order_positive (d : gmap string PyVal) :
  amount_positive d = true ->
  handle_order d =
  match d !! "id" with
  | None => inl (KeyError "id")
  | Some i => inr (legacy_ok i (wants_priority d))
  end.
Proof.
  unfold amount_positive, handle_order, wants_priority.
  destruct (d !! "amount") as [[|[|]|z|q|s]|]; cbn; intros H; try discriminate H.
  - destruct (py_eq_True (dict_get d "priority")), (d !! "id"); reflexivity.
  - apply Z.ltb_lt in H. destruct (Z.leb_spec z 0); [lia|].
    destruct (py_eq_True (dict_get d "priority")), (d !! "id"); reflexivity.
  - apply negb_true_iff in H. rewrite H.
    destruct (py_eq_True (dict_get d "priority")), (d !! "id"); reflexivity.
Qed.

Lemma handle_orders_loop_app (pre post : list (gmap string PyVal)) :
  forall results : list (gmap string PyVal),
  handle_orders_loop (pre ++ post) results =
  match handle_orders_loop pre results with
  | inl e => inl e
  | inr results' => handle_orders_loop post results'
  end.
Proof.
  induction pre as [|d pre IH]; intros results; cbn [app handle_orders_loop].
  - reflexivity.
  - destruct (handle_order d); [reflexivity | apply IH].
Qed.

(** When the loop returns, it has appended one dict per input dict, each
    the result of its round. *)
Lemma handle_orders_loop_inr (data : list (gmap string PyVal)) :
  forall results out : list (gmap string PyVal),
  handle_orders_loop data results = inr out ->
  exists items, out = results ++ items
                /\ Forall2 (fun d x => handle_order d = inr x) data items.
Proof.
  induction data as [|d data IH]; intros results out H; cbn [handle_orders_loop] in H.
  - injection H as <-. exists []. rewrite app_nil_r. split; [reflexivity | constructor].
  - destruct (handle_order d) as [e|x] eqn:E; [discriminate H|].
    destruct (IH _ _ H) as (items & -> & HF).
    exists (x :: items). rewrite <- app_assoc. split; [reflexivity|].
    now constructor.
Qed.

(** A dict the loop gets through: it stores an "id" and its amount is not
    a [str]. *)
Lemma handle_order_returns (d : gmap string PyVal) :
  is_Some (d !! "id") -> amount_is_str d = false ->
  exists x, handle_order d = inr x
            /\ dict_get x "id" = dict_get d "id"
            /\ legacy_is_ok x = amount_positive d
            /\ legacy_is_priority x = (amount_positive d && wants_priority d)
            /\ legacy_priority_key x = Z.b2z (legacy_is_priority x).
Proof.
  intros [i Hi] Hs.
  destruct (amount_trichotomy d) as [(Hr & Hp & _) | [(_ & Hp & _) | (_ & _ & Hs')]].
  - rewrite (handle_order_rejected d Hr), Hp. eexists. split; [reflexivity|].
    repeat split.
  - rewrite (handle_order_positive d Hp), Hi, Hp. eexists. split; [reflexivity|].
    split; [unfold dict_get; now rewrite Hi|]. split; [reflexivity|].
    cbn. now destruct (wants_priority d).
  - congruence.
Qed.

(** A list of dicts the loop gets through. *)
Lemma handle_orders_loop_returns (data : list (gmap string PyVal)) :
  Forall (fun d => is_Some (d !! "id") /\ amount_is_str d = false) data ->
  forall results : list (gmap string PyVal),
  exists items,
    handle_orders_loop data results = inr (results ++ items)
    /\ map (fun x => dict_get x "id") items = map (fun d => dict_get d "id") data
    /\ map legacy_is_ok items = map amount_positive data
    /\ map legacy_is_priority items
       = map (fun d => amount_positive d && wants_priority d) data
    /\ Forall (fun x => legacy_priority_key x = Z.b2z (legacy_is_priority x)) items.
Proof.
  induction 1 as [|d data [Hid Hs] _ IH]; intros results.
  - exists []. rewrite app_nil_r. repeat split. constructor.
  - destruct (handle_order_returns d Hid Hs) as (x & E & Hi & Hok & Hp & Hk).
    destruct (IH (results ++ [x])) as (items & E' & His & Hoks & Hps & Hks).
    exists (x :: items). cbn [handle_orders_loop map]. rewrite E, E', <- app_assoc.
    split; [reflexivity|]. rewrite Hi, Hok, Hp, His, Hoks, Hps.
    repeat split. now constructor.
Qed.






(** X15. The first dict the loop cannot get through ends the whole call,
    and nothing is returned for the dicts before it: after dicts that all
    store an "id" and no [str] amount, a dict whose amount is a number
    above zero but that stores no "id" makes [handle_orders] raise
    [KeyError('id')], and a dict whose amount is a [str] makes it raise
    [TypeError]. *)
Theorem handle_orders_raises_on_first_bad_dict
    (pre post : list (gmap string PyVal)) (d : gmap string PyVal) :
  Forall (fun d => is_Some (d !! "id") /\ amount_is_str d = false) pre ->
  (amount_positive d = true -> d !! "id" = None ->
   handle_orders (pre ++ d :: post) = inl (KeyError "id"))
  /\ (amount_is_str d = true -> handle_orders (pre ++ d :: post) = inl TypeError).
Proof.
  intros H.
  destruct (handle_orders_loop_returns pre H []) as (items & E & _).
  unfold handle_orders. rewrite handle_orders_loop_app, E.
  cbn [handle_orders_loop]. split.
  - intros Hp Hid. rewrite (handle_order_positive d Hp), Hid. reflexivity.
  - intros Hs. rewrite (handle_order_str d Hs). reflexivity.
Qed.

Lemma handle_orders_raises_on_first_bad_dict_witness :
  handle_orders
    [<["id" := PyInt 1]> (<["amount" := PyInt 5]> ∅); <["amount" := PyInt 7]> ∅]
  = inl (KeyError "id").
Proof.
  apply (handle_orders_raises_on_first_bad_dict
           [<["id" := PyInt 1]> (<["amount" := PyInt 5]> ∅)] []
           (<["amount" := PyInt 7]> ∅)).
  - repeat constructor. eexists; reflexivity.
  - reflexivity.
  - reflexivity.
Defined.

(** X16. A missing "id" is only an error on the "ok" path.  A dict that
    stores no "id" and whose amount is missing, [None], zero or negative
    does not raise: among dicts the loop gets through, it is answered with
    [{"id": None, "status": "error"}], which carries no "priority" key. *)
Theorem handle_orders_reports_missing_id_as_None
    (pre post : list (gmap string PyVal)) (d : gmap string PyVal) :
  Forall (fun d => is_Some (d !! "id") /\ amount_is_str d = false) pre ->
  Forall (fun d => is_Some (d !! "id") /\ amount_is_str d = false) post ->
  d !! "id" = None ->
  amount_rejected d = true ->
  exists results : list (gmap string PyVal),
    handle_orders (pre ++ d :: post) = inr results
    /\ length results = S (length pre + length post)
    /\ In (<["id" := PyNone]> (<["status" := PyStr "error"]> ∅)) results
    /\ (<["id" := PyNone]> (<["status" := PyStr "error"]> ∅) : gmap string PyVal)
         !! "priority" = None.
Proof.
  intros Hpre Hpost Hid Hr.
  destruct (handle_orders_loop_returns pre Hpre []) as (items1 & E1 & Hl1 & _).
  cbn [app] in E1.
  destruct (handle_orders_loop_returns post Hpost (items1 ++ [legacy_error PyNone]))
    as (items2 & E2 & Hl2 & _).
  assert (Hd : handle_order d = inr (legacy_error PyNone)).
  { rewrite (handle_order_rejected d Hr). unfold dict_get. now rewrite Hid. }
  eexists. unfold handle_orders.
  rewrite handle_orders_loop_app, E1. cbn [handle_orders_loop]. rewrite Hd, E2.
  split; [reflexivity|]. split; [|split; [|reflexivity]].
  - rewrite (Permutation_length (sorted_Permutation legacy_priority_key _)).
    rewrite !length_app. cbn [length].
    rewrite <- (length_map (fun x => dict_get x "id") items1), Hl1, length_map.
    rewrite <- (length_map (fun x => dict_get x "id") items2), Hl2, length_map. lia.
  - eapply Permutation_in; [symmetry; apply sorted_Permutation|].
    apply in_or_app. left. apply in_or_app. right. now left.
Qed.

Lemma handle_orders_reports_missing_id_as_None_witness :
  exists results : list (gmap string PyVal),
    handle_orders [<["amount" := PyInt 0]> ∅] = inr results
    /\ length results = 1%nat.
Proof.
  destruct (handle_orders_reports_missing_id_as_None [] [] (<["amount" := PyInt 0]> ∅))
    as (results & E & Hlen & _); try constructor; try reflexivity.
  exists results. split; [exact E | exact Hlen].
Defined.

(** * The scheduled statistics update, under any schedule *)

Lemma filter_length_insert {A : Type} (f : A -> bool) (l : list A) :
  forall (i : nat) (x y : A),
  l !! i = Some x ->
  (length (List.filter f (<[i := y]> l)) + (if f x then 1 else 0)
   = length (List.filter f l) + (if f y then 1 else 0))%nat.
Proof.
  induction l as [|z l IH]; intros i x y H; [discriminate H|].
  destruct i as [|i]; cbn in H.
  - injection H as ->. cbn [insert list_insert List.filter].
    destruct (f x), (f y); cbn [length]; lia.
  - specialize (IH i x y H).
    change (<[S i := y]> (z :: l)) with (z :: <[i := y]> l).
    cbn [List.filter].
    destruct (f z), (f x), (f y); cbn [length] in *; lia.
Qed.

Lemma holds_sound_count_mono (c0 D D' : Z) (t : UpdateThread) :
  D <= D' -> holds_sound_count c0 D t -> holds_sound_count c0 D' t.
Proof.
  unfold holds_sound_count. destruct (pc t); intros; try exact I; lia.
Qed.

(** One statement of one call keeps the invariant. *)
Lemma update_step_keeps_count_invariant (c0 : Z) (threads : list UpdateThread)
    (stats : DailyStats) (i : nat) (t : UpdateThread) :
  threads !! i = Some t ->
  count_invariant c0 threads stats ->
  count_invariant c0 (<[i := fst (update_step t stats)]> threads)
                  (snd (update_step t stats)).
Proof.
  intros Hi (Hc & Hlow & Hall).
  pose proof (Forall_lookup_1 _ _ _ _ Hall Hi) as Ht.
  assert (HD : forall t',
             (returned_calls (<[i := t']> threads)
              + (if returned t then 1 else 0)
              = returned_calls threads + (if returned t' then 1 else 0))).
  { intros t'. unfold returned_calls.
    pose proof (filter_length_insert returned threads i t t' Hi).
    destruct (returned t), (returned t'); lia. }
  unfold update_step, holds_sound_count in *.
  destruct (pc t) eqn:Hpc; cbn [fst snd];
    match goal with
    | |- count_invariant _ (<[_ := ?t']> _) _ => specialize (HD t')
    end;
    unfold returned in HD; rewrite Hpc in HD; cbn [pc] in HD; unfold count_invariant.
  1-4: replace (returned_calls (<[i:=_]> threads)) with (returned_calls threads) by lia;
       split; [exact Hc|]; split; [exact Hlow|];
       apply Forall_insert; [exact Hall|];
       unfold holds_sound_count; cbn [pc current_count]; try exact I; lia.
  - replace (returned_calls (<[i:=_]> threads)) with (returned_calls threads + 1) by lia.
    cbn [order_count]. split; [lia|]. split; [lia|].
    apply Forall_insert; [|exact I].
    eapply List.Forall_impl; [|exact Hall].
    intros u. apply holds_sound_count_mono. lia.
  - rewrite list_insert_id by exact Hi.
    split; [exact Hc|]. split; [exact Hlow | exact Hall].
Qed.

Lemma run_schedule_keeps_count_invariant (c0 : Z) (schedule : list nat) :
  forall (threads : list UpdateThread) (stats : DailyStats),
  count_invariant c0 threads stats ->
  count_invariant c0 (fst (run_schedule schedule threads stats))
                  (snd (run_schedule schedule threads stats)).
Proof.
  induction schedule as [|i schedule IH]; intros threads stats H;
    cbn [run_schedule]; [exact H|].
  destruct (threads !! i) as [t|] eqn:Hi; [|now apply IH].
  pose proof (update_step_keeps_count_invariant c0 threads stats i t Hi H) as H'.
  destruct (update_step t stats) as [t' stats']. now apply IH.
Qed.

Lemma run_schedule_length (schedule : list nat) :
  forall (threads : list UpdateThread) (stats : DailyStats),
  length (fst (run_schedule schedule threads stats)) = length threads.
Proof.
  induction schedule as [|i schedule IH]; intros threads stats;
    cbn [run_schedule]; [reflexivity|].
  destruct (threads !! i) as [t|]; [|apply IH].
  destruct (update_step t stats) as [t' stats']. rewrite IH. apply length_insert.
Qed.

Lemma filter_all_length {A : Type} (f : A -> bool) (l : list A) :
  forallb f l = true -> length (List.filter f l) = length l.
Proof.
  induction l as [|x l IH]; cbn; [reflexivity|].
  intros H. apply andb_true_iff in H as [Hx Hl]. rewrite Hx. cbn. now rewrite IH.
Qed.

(** X18. Under any schedule of any pool of fresh [_update_daily_stats]
    calls, the order count never goes below its starting value and never
    above the starting value plus the number of calls that have returned,
    hence never above the starting value plus the size of the pool: an
    interleaving can lose updates but cannot count an order that was not
    placed.  Once every call of a non-empty pool has returned, at least one
    order has been counted. *)
Theorem scheduled_updates_never_overcount (amounts : list float) (schedule : list nat)
    (stats : DailyStats) :
  let run := run_schedule schedule (map spawn_update amounts) stats in
  order_count stats <= order_count (snd run)
  /\ order_count (snd run) <= order_count stats + returned_calls (fst run)
  /\ order_count (snd run) <= order_count stats + Z.of_nat (length amounts)
  /\ (forallb returned (fst run) = true -> amounts <> [] ->
      order_count stats + 1 <= order_count (snd run)).
Proof.
  intros run.
  assert (H0 : count_invariant (order_count stats) (map spawn_update amounts) stats).
  { assert (HD : returned_calls (map spawn_update amounts) = 0).
    { unfold returned_calls. induction amounts as [|a l IH]; [reflexivity|].
      cbn [map List.filter returned spawn_update pc]. exact IH. }
    unfold count_invariant. rewrite HD. split; [lia|]. split; [lia|].
    apply List.Forall_forall. intros t Ht. apply List.in_map_iff in Ht as (a & <- & _).
    exact I. }
  pose proof (run_schedule_keeps_count_invariant _ schedule _ _ H0) as (Hc & Hlow & _).
  fold run in Hc, Hlow.
  pose proof (run_schedule_length schedule (map spawn_update amounts) stats) as Hlen.
  fold run in Hlen. rewrite length_map in Hlen.
  assert (Hle : returned_calls (fst run) <= Z.of_nat (length amounts)).
  { unfold returned_calls. rewrite <- Hlen.
    pose proof (List.filter_length_le returned (fst run)). lia. }
  split; [lia|]. split; [lia|]. split; [lia|].
  intros Hall Hne. apply Hlow. unfold returned_calls.
  rewrite (filter_all_length _ _ Hall), Hlen.
  destruct amounts; [now contradiction Hne | cbn [length]; lia].
Qed.

Lemma scheduled_updates_never_overcount_witness :
  let run := run_schedule [0; 0; 0; 1; 1; 1; 0; 0; 1; 1]%nat
               (map spawn_update [10%float; 10%float]) empty_stats in
  0 + 1 <= order_count (snd run) /\ order_count (snd run) <= 0 + 2.
Proof.
  intros run.
  destruct (scheduled_updates_never_overcount [10%float; 10%float]
              [0; 0; 0; 1; 1; 1; 0; 0; 1; 1]%nat empty_stats) as (_ & _ & Hup & Hlow).
  split; [apply Hlow; [reflexivity | discriminate] | exact Hup].
Defined.
